(** * PubMed shard extraction (parse_pubmed_local.py): a shallow embedding

    The Python program streams one gzip-compressed PubMed XML shard through
    lxml's [iterparse], turns every [MedlineCitation] element into a record
    and every [DeleteCitation] element into tombstones, and writes the
    records as JSON lines to a temporary file that is renamed into place at
    the end.

    The embedding keeps the program's own functions ([_stringify],
    [parse_mesh_terms], [parse_pmid], [parse_keywords], [parse_title_abstract],
    [parse_article_record], [iter_records_from_xml_gz], [xml_gz_to_jsonl]).
    What the program takes from libraries (lxml's element tree, ElementPath,
    [iterparse], [str.strip], [pathlib], [json.dumps], the optional
    [pubmed_parser] module) is modelled in the modules [Py], [Etree] and
    [Reader] below, as far as the program uses it. *)

From Stdlib Require Import Ascii String.
From stdpp Require Import base strings list gmap.

Set Warnings "-register-all".
Local Open Scope string_scope.
Local Open Scope nat_scope.
Local Open Scope list_scope.
Local Open Scope stdpp_scope.

(** ** Python strings *)

Module Py.

(** Code points are the 256 characters of [ascii]; [str.isspace] holds on
    these code points for 9..13, 28..32, 0x85 and 0xA0. *)
Definition isspace (c : ascii) : bool :=
  let n := nat_of_ascii c in
  (((9 <=? n) && (n <=? 13)) || ((28 <=? n) && (n <=? 32))
   || (n =? 133) || (n =? 160))%nat.

(** Truthiness of a [str]: non-empty. *)
Definition truthy (s : string) : bool :=
  match s with "" => false | _ => true end.

(** Truthiness of an attribute that is [None] or a [str]. *)
Definition truthy_opt (o : option string) : bool :=
  match o with Some s => truthy s | None => false end.

(** [o or ""] *)
Definition or_empty (o : option string) : string :=
  match o with Some s => if truthy s then s else "" | None => "" end.

Fixpoint lstrip (s : string) : string :=
  match s with
  | "" => ""
  | String c s' => if isspace c then lstrip s' else s
  end.

Fixpoint rstrip (s : string) : string :=
  match s with
  | "" => ""
  | String c s' =>
      let r := rstrip s' in
      if isspace c && negb (truthy r) then "" else String c r
  end.

(** Whitespace only (or empty). *)
Fixpoint all_space (s : string) : bool :=
  match s with
  | "" => true
  | String c s' => isspace c && all_space s'
  end.

(** [s.strip()] *)
Definition strip (s : string) : string := rstrip (lstrip s).

(** [sep.join(l)] *)
Fixpoint join (sep : string) (l : list string) : string :=
  match l with
  | [] => ""
  | [x] => x
  | x :: l' => x +:+ sep +:+ join sep l'
  end.

(** [s.rfind(c)] for a one-character needle; [None] stands for -1. *)
Fixpoint rfind (c : ascii) (s : string) : option nat :=
  match s with
  | "" => None
  | String a s' =>
      match rfind c s' with
      | Some i => Some (S i)
      | None => if Ascii.eqb a c then Some 0 else None
      end
  end.

(** The one-character strings for a line feed and a double quote. *)
Definition nl : string := String (ascii_of_nat 10) "".
Definition dq : string := String (ascii_of_nat 34) "".

(** Outcome of a call into a library that may raise. *)
Inductive result (A : Type) : Type :=
| Returns (a : A)
| Raises.
Global Arguments Returns {A} a.
Global Arguments Raises {A}.

End Py.

(** ** lxml elements and ElementPath *)

Module Etree.

(** An element as the program sees it: tag, attribute dictionary, leading
    text, sub-elements and the text that follows its end tag. *)
Inductive Element : Type :=
  Elem { tag : string;
         attrib : gmap string string;
         text : option string;
         children : list Element;
         tail : option string }.

(** Structural induction that reaches the sub-elements. *)
Section Element_induction.
Variable P : Element → Prop.
Hypothesis step : ∀ tg ats tx cs tl,
  Forall P cs → P (Elem tg ats tx cs tl).

Fixpoint Element_ind_children (e : Element) : P e :=
  match e with
  | Elem tg ats tx cs tl =>
      step tg ats tx cs tl
        ((fix all (l : list Element) : Forall P l :=
            match l with
            | [] => List.Forall_nil P
            | c :: l' => List.Forall_cons P c l' (Element_ind_children c) (all l')
            end) cs)
  end.
End Element_induction.

(** [len(elem)] *)
Definition len (e : Element) : nat := length (children e).

(** [elem.attrib.get(k, "")] *)
Definition attrib_get (e : Element) (k : string) : string :=
  default "" (attrib e !! k).

(** [elem.clear()]: drops sub-elements, attributes, text and tail; the
    element itself stays where it is in its parent. *)
Definition clear (e : Element) : Element :=
  Elem (tag e) ∅ None [] None.

Definition opt_list (o : option string) : list string :=
  match o with Some s => [s] | None => [] end.

(** [elem.itertext()]: the element's text, then for every sub-element its
    own text content followed by its tail; the element's own tail is not
    part of it. *)
Fixpoint itertext (e : Element) : list string :=
  match e with
  | Elem _ _ tx cs _ =>
      opt_list tx ++
      (fix go (l : list Element) : list string :=
         match l with
         | [] => []
         | c :: l' => itertext c ++ opt_list (tail c) ++ go l'
         end) cs
  end.

(** All proper descendants in document order ([elem.iter()] without the
    element itself). *)
Fixpoint descendants (e : Element) : list Element :=
  match e with
  | Elem _ _ _ cs _ =>
      (fix go (l : list Element) : list Element :=
         match l with
         | [] => []
         | c :: l' => c :: descendants c ++ go l'
         end) cs
  end.

(** The element and all its descendants, each after its sub-elements: the
    order in which their end tags occur. *)
Fixpoint postorder (e : Element) : list Element :=
  match e with
  | Elem _ _ _ cs _ =>
      (fix go (l : list Element) : list Element :=
         match l with
         | [] => []
         | c :: l' => postorder c ++ go l'
         end) cs ++ [e]
  end.

(** Number of nodes of a subtree. *)
Fixpoint size (e : Element) : nat :=
  match e with
  | Elem _ _ _ cs _ =>
      S ((fix go (l : list Element) : nat :=
            match l with
            | [] => 0
            | c :: l' => size c + go l'
            end) cs)
  end.

(** The ElementPath steps the program uses:
    [t], [t[@k="v"]] and [.//t]. *)
Inductive step : Type :=
| Child (t : string)
| ChildAttr (t k v : string)
| Descendant (t : string).

Definition has_tag (t : string) (e : Element) : bool :=
  String.eqb (tag e) t.

Definition has_attr (k v : string) (e : Element) : bool :=
  bool_decide (attrib e !! k = Some v).

Definition select (s : step) (e : Element) : list Element :=
  match s with
  | Child t => List.filter (has_tag t) (children e)
  | ChildAttr t k v =>
      List.filter (λ c, has_tag t c && has_attr k v c) (children e)
  | Descendant t => List.filter (has_tag t) (descendants e)
  end.

(** [elem.findall(path)]: every step maps the current result set to the
    matches below each of its members, in order. *)
Definition findall (p : list step) (e : Element) : list Element :=
  fold_left (λ acc s, flat_map (select s) acc) p [e].

(** [elem.find(path)]: the first match or [None]. *)
Definition find (p : list step) (e : Element) : option Element :=
  head (findall p e).

End Etree.

Export Py Etree.

(** ** The optional pubmed_parser module *)

(** The two entry points the program calls; both may raise, and both may
    return [None]. *)
Record PubmedParser : Type := {
  stringify_children : Element → result (option string);
  pp_parse_keywords : Element → result (option (list string));
}.

(** ** Output records *)

Record PubmedRecord : Type := {
  pmid : string;
  docno : string;
  title : string;
  abstract : string;
  mesh_terms : string;
  keywords : list string;
  is_deleted : bool;
}.

(** ** Field extraction *)

Section Extraction.

(** The module-level name [pp]: the imported module, or [None] when the
    import failed. *)
Variable pp : option PubmedParser.

Definition stringify_fallback (node : Element) : string :=
  strip (join " "
    (map strip
       (List.filter (λ t, truthy t && truthy (strip t)) (itertext node)))).

Definition _stringify (node : option Element) : string :=
  match node with
  | None => ""
  | Some node =>
      match pp with
      | Some lib =>
          match stringify_children lib node with
          | Returns r => strip (or_empty r)
          | Raises => stringify_fallback node
          end
      | None => stringify_fallback node
      end
  end.

Definition mesh_entry (mh : Element) : list string :=
  match find [Child "DescriptorName"] mh with
  | None => []
  | Some d =>
      let ui := attrib_get d "UI" in
      let txt := strip (or_empty (text d)) in
      if truthy ui && truthy txt then [ui +:+ ":" +:+ txt]
      else if truthy txt then [txt]
      else []
  end.

Definition parse_mesh_terms (medline : Element) : string :=
  match find [Child "MeshHeadingList"] medline with
  | None => ""
  | Some mesh_list =>
      join "; " (flat_map mesh_entry (findall [Child "MeshHeading"] mesh_list))
  end.

Definition parse_pmid (medline : Element) : string :=
  let fallback :=
    match find [Child "PubmedData"; Child "ArticleIdList"] medline with
    | Some article_ids =>
        match find [ChildAttr "ArticleId" "IdType" "pubmed"] article_ids with
        | Some x =>
            if truthy_opt (text x) then strip (or_empty (text x)) else ""
        | None => ""
        end
    | None => ""
    end in
  match find [Child "PMID"] medline with
  | Some p =>
      if truthy_opt (text p) then strip (or_empty (text p)) else fallback
  | None => fallback
  end.

Definition keyword_entry (kw : Element) : list string :=
  let t := strip (or_empty (text kw)) in
  if truthy t then [t] else [].

Definition keywords_fallback (medline : Element) : list string :=
  flat_map keyword_entry
    (findall [Descendant "KeywordList"; Child "Keyword"] medline).

Definition parse_keywords (medline : Element) : list string :=
  match pp with
  | Some lib =>
      match pp_parse_keywords lib medline with
      | Returns (Some kws) => kws
      | Returns None => []
      | Raises => keywords_fallback medline
      end
  | None => keywords_fallback medline
  end.

Definition segment_label (a : Element) : string :=
  let l := attrib_get a "Label" in
  if truthy l then l else attrib_get a "NlmCategory".

Definition segment_parts (a : Element) : list string :=
  let label := segment_label a in
  (if truthy label && negb (String.eqb label "UNASSIGNED")
   then [label] else [])
  ++ [_stringify (Some a)].

(** Returns the pair (title, abstract) of the dictionary. *)
Definition parse_title_abstract (medline : Element) : string * string :=
  match find [Child "Article"] medline with
  | None => ("", "")
  | Some article =>
      let title := _stringify (find [Child "ArticleTitle"] article) in
      let abs_texts := findall [Child "Abstract"; Child "AbstractText"] article in
      let abstract :=
        match abs_texts with
        | [] => _stringify (find [Child "Abstract"] article)
        | [a] => _stringify (Some a)
        | _ =>
            strip (join nl (List.filter truthy (flat_map segment_parts abs_texts)))
        end in
      (title, abstract)
  end.

Definition parse_article_record (medline : Element) : option PubmedRecord :=
  let pmid := parse_pmid medline in
  if negb (truthy pmid) then None
  else
    let ta := parse_title_abstract medline in
    Some {| pmid := pmid;
            docno := pmid;
            title := fst ta;
            abstract := snd ta;
            mesh_terms := parse_mesh_terms medline;
            keywords := parse_keywords medline;
            is_deleted := false |}.

End Extraction.

(** ** The streaming reader: gzip + libxml2 + [etree.iterparse] *)

Module Reader.

(** What reaches the parser, in order: start tags, character data, end
    tags; a region of malformed markup that a recovering parser passes
    over (such as a reference to an undefined entity); an end tag that
    closes nothing that is open; and the point at which the decompressor
    fails. The decompressor hands over whole blocks and raises while it
    reads a block, so the tokens before [TTruncated] are those of the
    blocks that were complete: what a broken block held is not part of the
    stream. *)
Inductive token : Type :=
| TStart (tg : string) (attrs : gmap string string)
| TText (s : string)
| TEnd
| TMalformed
| TStrayEnd
| TTruncated.

Inductive exn : Type := XMLSyntaxError | EOFError | ValueError.

(** How an iteration ends: exhausted, or an exception leaves the loop. *)
Inductive outcome : Type := Done | Raised (e : exn).

(** Keyword options shared by [etree.XMLParser] and [etree.iterparse];
    both default to off for XML input. The size limits that [huge_tree]
    lifts are outside the model. *)
Record options : Type := { recover : bool; huge_tree : bool }.

Definition XMLParser (recover huge_tree : bool) : options :=
  {| recover := recover; huge_tree := huge_tree |}.

Definition iterparse_defaults : options :=
  {| recover := false; huge_tree := false |}.

(** The tree under construction: the elements whose end tag has not been
    read yet, innermost first, each holding the sub-elements attached so
    far; and the root once it is closed. *)
Record tree : Type := { open_elems : list Element; closed_root : option Element }.

Definition empty_tree : tree := {| open_elems := []; closed_root := None |}.

Fixpoint map_last {A} (f : A → A) (l : list A) : list A :=
  match l with
  | [] => []
  | [x] => [f x]
  | x :: l' => x :: map_last f l'
  end.

Definition append_text (o : option string) (s : string) : option string :=
  Some (default "" o +:+ s).

(** Character data goes to the text of the innermost open element, or to
    the tail of its last sub-element when it has one. *)
Definition add_text (s : string) (e : Element) : Element :=
  match children e with
  | [] => Elem (tag e) (attrib e) (append_text (text e) s) [] (tail e)
  | cs =>
      Elem (tag e) (attrib e) (text e)
        (map_last (λ c, Elem (tag c) (attrib c) (text c) (children c)
                          (append_text (tail c) s)) cs)
        (tail e)
  end.

Definition add_child (c : Element) (e : Element) : Element :=
  Elem (tag e) (attrib e) (text e) (children e ++ [c]) (tail e).

(** A closed element stays in the tree, as the last sub-element of the
    element around it. *)
Definition attach (e : Element) (rest : list Element) (t : tree) : tree :=
  match rest with
  | p :: rest' => {| open_elems := add_child e p :: rest'; closed_root := closed_root t |}
  | [] => {| open_elems := []; closed_root := Some e |}
  end.

(** What reading one token does to the loop: go on with a new tree and the
    values the body yielded, or leave the loop, normally or with an
    exception. *)
Inductive fed (A : Type) : Type :=
| Next (t : tree) (ys : list A)
| Stop (out : outcome).
Global Arguments Next {A} t ys.
Global Arguments Stop {A} out.

(** An "end" event hands the loop body the element just closed, with all
    its content; the body yields values and may change the element in
    place before the reader goes on. Without [recover] every defect raises
    [XMLSyntaxError]: a malformed region, a stray end tag, and an end tag,
    a second document element or text other than whitespace outside the
    document element. With [recover] a malformed region is passed over,
    and the other defects end the document without an exception.

    The body runs here as soon as the end tag is read. lxml reads its
    input in blocks and hands over the events of a block once the block
    is parsed, so in a run the text after the end tag, and further
    elements of the same block, can be in the tree already when the body
    sees the element. *)
Definition feed {A} (opts : options) (body : Element → list A * Element)
    (t : tree) (tok : token) : fed A :=
  let passed_over :=
    if recover opts then Next t [] else Stop (Raised XMLSyntaxError) in
  let broken :=
    if recover opts then Stop Done else Stop (Raised XMLSyntaxError) in
  match tok with
  | TTruncated => Stop (Raised EOFError)
  | TMalformed => passed_over
  | TStrayEnd => broken
  | TStart tg attrs =>
      match open_elems t, closed_root t with
      | [], Some _ => broken
      | st, r =>
          Next {| open_elems := Elem tg attrs None [] None :: st;
                  closed_root := r |} []
      end
  | TText s =>
      match open_elems t with
      | [] => if all_space s then Next t [] else broken
      | e :: st =>
          Next {| open_elems := add_text s e :: st;
                  closed_root := closed_root t |} []
      end
  | TEnd =>
      match open_elems t with
      | [] => broken
      | e :: st => let '(ys, e') := body e in Next (attach e' st t) ys
      end
  end.

(** The element whose end tag a token is, if any. *)
Definition closed_by (t : tree) (tok : token) : option Element :=
  match tok, open_elems t with
  | TEnd, e :: _ => Some e
  | _, _ => None
  end.

(** End of input: without [recover], a document that is empty or has
    elements still open raises [XMLSyntaxError]. *)
Definition at_eof (opts : options) (t : tree) : outcome :=
  if negb (recover opts)
     && (negb (bool_decide (open_elems t = []))
         || negb (bool_decide (is_Some (closed_root t))))
  then Raised XMLSyntaxError
  else Done.

(** [for _, elem in etree.iterparse(fh, events=("end",), **opts): body]:
    the values yielded, in order, and how the loop ends. *)
Fixpoint iterparse {A} (opts : options) (body : Element → list A * Element)
    (t : tree) (fh : list token) : list A * outcome :=
  match fh with
  | [] => ([], at_eof opts t)
  | tok :: fh' =>
      match feed opts body t tok with
      | Stop out => ([], out)
      | Next t' ys =>
          let '(ys', out) := iterparse opts body t' fh' in
          (ys ++ ys', out)
      end
  end.

(** The same loop with a body that yields the element itself and changes
    it as [body] does. *)
Definition observing {A} (body : Element → list A * Element) :
    Element → list Element * Element :=
  λ e, ([e], (body e).2).

(** The tree held while the loop is at the end of [fh] (or at the token
    that raised). *)
Fixpoint tree_after {A} (opts : options) (body : Element → list A * Element)
    (t : tree) (fh : list token) : tree :=
  match fh with
  | [] => t
  | tok :: fh' =>
      match feed opts body t tok with
      | Stop _ => t
      | Next t' _ => tree_after opts body t' fh'
      end
  end.

(** [reads opts body t toks ys t']: from the tree [t] the loop reads all of
    [toks] without an exception, yields [ys] and holds [t'] afterwards. *)
Inductive reads {A} (opts : options) (body : Element → list A * Element) :
    tree → list token → list A → tree → Prop :=
| reads_nil (t : tree) :
    reads opts body t [] [] t
| reads_cons (t t' t'' : tree) (tok : token) (toks : list token)
    (ys ys' : list A) :
    feed opts body t tok = Next t' ys →
    reads opts body t' toks ys' t'' →
    reads opts body t (tok :: toks) (ys ++ ys') t''.

(** Nodes held by the tree. *)
Definition resident (t : tree) : nat :=
  sum_list (map size (open_elems t)) + from_option size 0 (closed_root t).

(** The token stream of a well-formed element. *)
Fixpoint to_tokens (e : Element) : list token :=
  match e with
  | Elem tg attrs tx cs _ =>
      TStart tg attrs :: map TText (opt_list tx) ++
      (fix go (l : list Element) : list token :=
         match l with
         | [] => []
         | c :: l' => to_tokens c ++ map TText (opt_list (tail c)) ++ go l'
         end) cs ++ [TEnd]
  end.

End Reader.

Export Reader.

(** ** The record generator *)

Section Generator.

Variable pp : option PubmedParser.

Definition tombstone (pmid : string) : PubmedRecord :=
  {| pmid := pmid;
     docno := pmid;
     title := "";
     abstract := "";
     mesh_terms := "";
     keywords := [];
     is_deleted := true |}.

Definition tombstone_entry (pmid_node : Element) : list PubmedRecord :=
  if truthy_opt (text pmid_node) && truthy (strip (or_empty (text pmid_node)))
  then [tombstone (strip (or_empty (text pmid_node)))]
  else [].

(** The body of the [for] loop: the records it yields for one "end" event
    and the element as it leaves it. *)
Definition loop_body (elem : Element) : list PubmedRecord * Element :=
  if String.eqb (tag elem) "MedlineCitation" then
    (match parse_article_record pp elem with
     | Some rec => [rec]
     | None => []
     end,
     clear elem)
  else if String.eqb (tag elem) "DeleteCitation" then
    (flat_map tombstone_entry (findall [Child "PMID"] elem), clear elem)
  else
    ([], if 1000 <? len elem then clear elem else elem).

(** The records yielded, in order, and how the iteration ends. [fh] is
    what [gzip.open(gz_path)] delivers to the tokenizer. *)
Definition iter_records_from_xml_gz (fh : list token) : list PubmedRecord * outcome :=
  let parser := XMLParser true true in
  iterparse iterparse_defaults loop_body empty_tree fh.

End Generator.

(** ** The shard writer *)

Module Writer.

(** [json.dumps(s, ensure_ascii=False)] on a string. *)
Definition hex_digit (n : nat) : string :=
  substring n 1 "0123456789abcdef".

Definition escape_char (c : ascii) : string :=
  let n := nat_of_ascii c in
  if n =? 34 then "\" +:+ dq
  else if n =? 92 then "\\"
  else if n =? 10 then "\n"
  else if n =? 13 then "\r"
  else if n =? 9 then "\t"
  else if n =? 8 then "\b"
  else if n =? 12 then "\f"
  else if n <? 32 then "\u00" +:+ hex_digit (n / 16) +:+ hex_digit (n mod 16)
  else String c "".

Fixpoint escape (s : string) : string :=
  match s with
  | "" => ""
  | String c s' => escape_char c +:+ escape s'
  end.

Definition json_str (s : string) : string := dq +:+ escape s +:+ dq.

Definition json_bool (b : bool) : string := if b then "true" else "false".

Definition json_list (l : list string) : string :=
  "[" +:+ join ", " (map json_str l) +:+ "]".

(** [json.dumps(rec, ensure_ascii=False)] on a record dictionary: keys in
    insertion order, separators [", "] and [": "]. *)
Definition json_dumps (r : PubmedRecord) : string :=
  "{" +:+ join ", "
    [ json_str "pmid" +:+ ": " +:+ json_str (pmid r);
      json_str "docno" +:+ ": " +:+ json_str (docno r);
      json_str "title" +:+ ": " +:+ json_str (title r);
      json_str "abstract" +:+ ": " +:+ json_str (abstract r);
      json_str "mesh_terms" +:+ ": " +:+ json_str (mesh_terms r);
      json_str "keywords" +:+ ": " +:+ json_list (keywords r);
      json_str "is_deleted" +:+ ": " +:+ json_bool (is_deleted r) ]
  +:+ "}".

(** A path is its parent directory and its final component. *)
Abbreviation Path := (string * string)%type.

(** The text files of the file system, by path. Directories are not
    tracked, and file operations themselves do not fail. *)
Abbreviation FS := (gmap (string * string) string).

(** [PurePath.suffix] of a final component. *)
Definition path_suffix (name : string) : string :=
  match rfind "." name with
  | Some i =>
      if (0 <? i) && (i <? String.length name - 1)
      then substring i (String.length name - i) name
      else ""
  | None => ""
  end.

(** [path.with_suffix(suffix)] for a valid [suffix]; [None] stands for the
    [ValueError] raised on an empty name. *)
Definition with_suffix (p : Path) (suffix : string) : option Path :=
  let name := p.2 in
  if negb (truthy name) then None
  else
    let old_suffix := path_suffix name in
    Some (p.1,
          if negb (truthy old_suffix) then name +:+ suffix
          else substring 0 (String.length name - String.length old_suffix) name +:+ suffix).

(** [open(p, "w")]: creates the file or truncates it. *)
Definition open_w (p : Path) (fs : FS) : FS := <[p := ""]> fs.

(** [out.write(s)] on the file opened at [p]. *)
Definition write (p : Path) (s : string) (fs : FS) : FS :=
  alter (λ content, content +:+ s) p fs.

(** [src.replace(dst)]: the rename that overwrites. *)
Definition replace (src dst : Path) (fs : FS) : FS :=
  match fs !! src with
  | Some content => <[dst := content]> (delete src fs)
  | None => fs
  end.

End Writer.

Export Writer.

Section ShardWriter.

Variable pp : option PubmedParser.

(** One shard: [fh] is the token stream read from [gz_path]; the result is
    the file system afterwards and how the call ends. *)
Definition xml_gz_to_jsonl (fh : list token) (jsonl_path : Path) (fs : FS) : FS * outcome :=
  match with_suffix jsonl_path ".jsonl.partial" with
  | None => (fs, Raised ValueError)
  | Some tmp =>
      let '(recs, out) := iter_records_from_xml_gz pp fh in
      let fs' :=
        fold_left (λ fs rec, write tmp (json_dumps rec +:+ nl) fs) recs
          (open_w tmp fs) in
      match out with
      | Raised e => (fs', Raised e)
      | Done => (replace tmp jsonl_path fs', Done)
      end
  end.

End ShardWriter.

(** ** Observations the statements are written with *)

Section Observations.

Variable pp : option PubmedParser.

(** The elements handed to the loop body, one per "end" event and as the
    body finds them, up to the end of the iteration. *)
Definition end_events (fh : list token) : list Element :=
  (iterparse iterparse_defaults (observing (loop_body pp)) empty_tree fh).1.

(** The text a file holds after one line per record has been written. *)
Definition written (recs : list PubmedRecord) : string :=
  fold_left (λ content rec, content +:+ (json_dumps rec +:+ nl)) recs "".

(** Absent, empty or whitespace-only text. *)
Definition blank (o : option string) : bool :=
  match o with
  | None => true
  | Some s => all_space s
  end.

(** The fields a tombstone leaves empty, and its flag. *)
Definition bare_tombstone (r : PubmedRecord) : Prop :=
  is_deleted r = true ∧ docno r = pmid r ∧ title r = "" ∧ abstract r = ""
  ∧ mesh_terms r = "" ∧ keywords r = [].

(** As the deletion-list rule is worded: one tombstone for each of the
    [PMID] sub-elements. *)
Definition one_tombstone_per_child (elem : Element) : Prop :=
  length (iter_records_from_xml_gz pp (to_tokens elem)).1
  = length (findall [Child "PMID"] elem).

(** The trimmed text of an element, empty when there is none. *)
Definition trimmed_text (e : Element) : string := strip (or_empty (text e)).

(** As the abstract rule is worded: no segment, the flattened [Abstract];
    one segment, its flattened text; several, the newline-join of label
    (unless absent or "UNASSIGNED") and flattened text per segment. *)
Definition abstract_as_worded (article : Element) : string :=
  match findall [Child "Abstract"; Child "AbstractText"] article with
  | [] => _stringify pp (find [Child "Abstract"] article)
  | [a] => _stringify pp (Some a)
  | segs => join nl (flat_map (segment_parts pp) segs)
  end.

(** The abstract of a citation is the one so worded. *)
Definition abstract_claim (medline : Element) : Prop :=
  ∀ article, find [Child "Article"] medline = Some article →
    (parse_title_abstract pp medline).2 = abstract_as_worded article.

(** The [Keyword] sub-elements of the [KeywordList] descendants, list by
    list. *)
Definition keyword_elements (medline : Element) : list Element :=
  flat_map (λ kl, List.filter (has_tag "Keyword") (children kl))
    (List.filter (has_tag "KeywordList") (descendants medline)).

(** The enriched keyword extraction is unavailable or raises. *)
Definition enriched_keywords_fail (medline : Element) : Prop :=
  pp = None ∨ ∃ lib, pp = Some lib ∧ pp_parse_keywords lib medline = Raises.

(** As the keyword fallback is worded: the flattened text of every
    keyword, trimmed, without the empty ones. *)
Definition keywords_as_worded (medline : Element) : list string :=
  List.filter truthy
    (map (λ kw, _stringify pp (Some kw)) (keyword_elements medline)).

(** The fallback yields the keywords so worded. *)
Definition keyword_fallback_claim (medline : Element) : Prop :=
  enriched_keywords_fail medline →
  parse_keywords pp medline = keywords_as_worded medline.

(** A shard of well-formed citations: no "end" event is a deletion list,
    and every citation that ends has a resolvable identifier. *)
Definition citations_only (fh : list token) : bool :=
  forallb (λ e, negb (has_tag "DeleteCitation" e)
                && (negb (has_tag "MedlineCitation" e) || truthy (parse_pmid e)))
    (end_events fh).

(** The citation elements of a shard, as the loop finds them. *)
Definition citations (fh : list token) : list Element :=
  List.filter (has_tag "MedlineCitation") (end_events fh).

(** The citation elements of a document. *)
Definition citation_nodes (doc : Element) : list Element :=
  List.filter (has_tag "MedlineCitation") (postorder doc).

(** As the uniqueness property is worded. *)
Definition count_and_unique_ids (fh : list token) : Prop :=
  citations_only fh = true →
  length (iter_records_from_xml_gz pp fh).1 = length (citations fh)
  ∧ NoDup (map pmid (iter_records_from_xml_gz pp fh).1).

(** The tree the loop holds when it has read [fh]. *)
Definition tree_at (fh : list token) : tree :=
  tree_after iterparse_defaults (loop_body pp) empty_tree fh.

(** As the release rule is worded: an element that is of no record kind is
    never held with more than 1000 sub-elements. *)
Definition released_beyond_bound (fh : list token) : bool :=
  forallb (λ e, has_tag "MedlineCitation" e || has_tag "DeleteCitation" e
                || (len e <=? 1000))
    (open_elems (tree_at fh)).

End Observations.

(** ** Sample documents *)

Module Samples.

Definition leaf (tg tx : string) : Element := Elem tg ∅ (Some tx) [] None.

Definition node (tg : string) (cs : list Element) : Element :=
  Elem tg ∅ None cs None.

Definition labelled (label tx : string) : Element :=
  Elem "AbstractText" {["Label" := label]} (Some tx) [] None.

Definition citation (id : string) : Element :=
  node "MedlineCitation" [leaf "PMID" id].

(** A citation with a two-segment abstract. *)
Definition structured (segs : list Element) : Element :=
  node "MedlineCitation"
    [leaf "PMID" "12"; node "Article" [node "Abstract" segs]].

Definition background_results : Element :=
  structured [labelled "Background" "B."; labelled "Results" "R."].

Definition unassigned_results : Element :=
  structured [labelled "UNASSIGNED" "U."; labelled "Results" "R."].

(** The first segment has a label and no text. *)
Definition empty_background : Element :=
  structured [Elem "AbstractText" {["Label" := "Background"]} None [] None;
              labelled "Results" "R."].

(** [<Keyword>H<sub>2</sub>O</Keyword>] in a keyword list. *)
Definition keyword_with_markup : Element :=
  node "MedlineCitation"
    [leaf "PMID" "12";
     node "KeywordList"
       [Elem "Keyword" ∅ (Some "H") [Elem "sub" ∅ (Some "2") [] (Some "O")] None]].

(** An identifier with surrounding whitespace. *)
Definition padded_citation : Element := citation " 12 ".

(** The record of [citation id]. *)
Definition bare_record (id : string) : PubmedRecord :=
  {| pmid := id; docno := id; title := ""; abstract := ""; mesh_terms := "";
     keywords := []; is_deleted := false |}.

(** [<DeleteCitation><PMID>1</PMID><PMID> </PMID></DeleteCitation>] *)
Definition deletion_with_blank : Element :=
  node "DeleteCitation" [leaf "PMID" "1"; leaf "PMID" " "].

(** A citation without any identifier. *)
Definition anonymous_citation : Element :=
  node "MedlineCitation" [node "Article" [leaf "ArticleTitle" "Untitled"]].

(** Two citations around a region of malformed markup, such as a reference
    to an undefined entity. *)
Definition shard_with_defect : list token :=
  [TStart "PubmedArticleSet" ∅] ++ to_tokens (citation "1")
  ++ [TMalformed] ++ to_tokens (citation "2") ++ [TEnd].

(** The blocks that reached the parser hold one citation; then the
    compressed stream breaks off. *)
Definition truncated_shard : list token :=
  [TStart "PubmedArticleSet" ∅] ++ to_tokens (citation "1") ++ [TTruncated].

(** A shard whose two citations carry the same identifier. *)
Definition shard_with_repeat : list token :=
  to_tokens (node "PubmedArticleSet" [citation "7"; citation "7"]).

(** An open document element followed by [n] citations. *)
Definition citation_run (n : nat) : list token :=
  TStart "PubmedArticleSet" ∅ :: concat (replicate n (to_tokens (citation "1"))).

Definition final_path : Path := ("out", "pubmed25n0001.jsonl").

Definition previous_run : FS := {[ final_path := "old" ]}.

End Samples.

(** ** The command-line driver *)

Module Driver.

(** [s.replace(old, new)] for a non-empty [old]: every occurrence, from the
    left, without overlap. [skip] counts the characters of an occurrence
    that are still to be passed over. *)
Fixpoint replace_from (old new : string) (skip : nat) (s : string) : string :=
  match s with
  | "" => ""
  | String c s' =>
      match skip with
      | S k => replace_from old new k s'
      | 0 =>
          if String.prefix old s
          then new +:+ replace_from old new (String.length old - 1) s'
          else String c (replace_from old new 0 s')
      end
  end.

Definition str_replace (old new s : string) : string :=
  replace_from old new 0 s.

(** [l[:n]] *)
Definition slice_to {A} (n : Z) (l : list A) : list A :=
  if (0 <=? n)%Z then take (Z.to_nat n) l
  else take (length l - Z.to_nat (- n)) l.

(** The parsed command line. *)
Record Args : Type := {
  input_dir : string;
  output_dir : string;
  glob : string;
  skip_existing : bool;
  max_files : option Z;
}.

(** [p.exists() and p.stat().st_size > 0] *)
Definition exists_nonempty (p : Path) (fs : FS) : bool :=
  match fs !! p with
  | Some content => truthy content
  | None => false
  end.

End Driver.

Export Driver.

Section Main.

Variable pp : option PubmedParser.

(** [sorted(in_dir.glob(pattern))]: the input files found, in order. *)
Variable sorted_glob : string → string → list Path.

(** What reading the archive at a path delivers. *)
Variable gzip_open : Path → list token.

(** [out_dir / gz_path.name.replace(".xml.gz", ".jsonl")] *)
Definition jsonl_path_of (args : Args) (gz_path : Path) : Path :=
  (output_dir args, str_replace ".xml.gz" ".jsonl" gz_path.2).

(** The [for gz_path in files] loop of [main]; an exception raised by
    [xml_gz_to_jsonl] is not caught and ends it. Printing is left out. *)
Fixpoint parse_files (args : Args) (files : list Path) (fs : FS) : FS * outcome :=
  match files with
  | [] => (fs, Done)
  | gz_path :: files' =>
      let jsonl_path := jsonl_path_of args gz_path in
      if skip_existing args && exists_nonempty jsonl_path fs
      then parse_files args files' fs
      else
        match xml_gz_to_jsonl pp (gzip_open gz_path) jsonl_path fs with
        | (fs', Done) => parse_files args files' fs'
        | (fs', Raised e) => (fs', Raised e)
        end
  end.

Definition main (args : Args) (fs : FS) : FS * outcome :=
  let files := sorted_glob (input_dir args) (glob args) in
  let files :=
    match max_files args with
    | Some n => slice_to n files
    | None => files
    end in
  parse_files args files fs.

End Main.

(** ** Further observations *)

Section DocumentRecords.

Variable pp : option PubmedParser.

Definition record_kind (e : Element) : bool :=
  has_tag "MedlineCitation" e || has_tag "DeleteCitation" e.

(** A subtree that the loop leaves as it is: no element of a record kind
    and none with more than 1000 sub-elements. *)
Fixpoint quiet (e : Element) : bool :=
  match e with
  | Elem tg attrs tx cs tl =>
      negb (record_kind (Elem tg attrs tx cs tl))
      && (length cs <=? 1000)
      && forallb quiet cs
  end.

(** A document in which the elements of a record kind hold quiet
    subtrees only. *)
Fixpoint regular (e : Element) : bool :=
  match e with
  | Elem tg attrs tx cs tl =>
      if record_kind (Elem tg attrs tx cs tl)
      then forallb quiet cs
      else forallb regular cs
  end.

(** An element at its "end" event: the text after its end tag has not been
    read yet. *)
Definition untail (e : Element) : Element :=
  Elem (tag e) (attrib e) (text e) (children e) None.

(** The records of a document, element by element in document order. *)
Fixpoint document_records (e : Element) : list PubmedRecord :=
  match e with
  | Elem tg attrs tx cs tl =>
      if record_kind (Elem tg attrs tx cs tl)
      then (loop_body pp (Elem tg attrs tx cs None)).1
      else flat_map document_records cs
  end.

(** Occurrences of a character. *)
Fixpoint count_char (c : ascii) (s : string) : nat :=
  match s with
  | "" => 0
  | String a s' => (if Ascii.eqb a c then 1 else 0) + count_char c s'
  end.

(** No control character (code below 32). *)
Fixpoint no_control (s : string) : bool :=
  match s with
  | "" => true
  | String a s' => (32 <=? nat_of_ascii a) && no_control s'
  end.

(** Where a yielded record comes from: a citation element, whose record
    it is, or a [PMID] sub-element of a deletion list. *)
Definition from_citation (e : Element) (r : PubmedRecord) : Prop :=
  tag e = "MedlineCitation" ∧ parse_article_record pp e = Some r.

Definition from_deletion (e : Element) (r : PubmedRecord) : Prop :=
  tag e = "DeleteCitation"
  ∧ ∃ c, c ∈ findall [Child "PMID"] e ∧ blank (text c) = false
         ∧ r = tombstone (trimmed_text c).

End DocumentRecords.

Module MoreSamples.

(** A document as PubMed ships them: articles with a citation and further
    data, and a deletion list at the end. *)
Definition article (id : string) : Element :=
  Samples.node "PubmedArticle"
    [Samples.citation id;
     Samples.node "PubmedData" [Samples.leaf "PublicationStatus" "ppublish"]].

Definition update_file : Element :=
  Samples.node "PubmedArticleSet"
    [article "1"; article "2";
     Samples.node "DeleteCitation" [Samples.leaf "PMID" "9"]].


Definition gz (name : string) : Path := ("in", name).

Definition run_args (skip : bool) : Args :=
  {| input_dir := "in"; output_dir := "out"; glob := "*.xml.gz";
     skip_existing := skip; max_files := None |}.

(** Two shards; the first one is cut off. *)
Definition listing (in_dir pattern : string) : list Path :=
  [gz "a.xml.gz"; gz "b.xml.gz"].

Definition contents (p : Path) : list token :=
  if String.eqb p.2 "a.xml.gz" then Samples.truncated_shard
  else to_tokens update_file.

Definition both_done : FS :=
  {[ ("out", "a.jsonl") := "x"; ("out", "b.jsonl") := "y" ]}.

End MoreSamples.

Module BigSamples.




End BigSamples.

(** * Properties *)

(** ** Strings *)

Section StringFacts.

Lemma truthy_true (s : string) : truthy s = true ↔ s ≠ "".
Proof. destruct s; simpl; split; congruence. Qed.

Lemma truthy_false (s : string) : truthy s = false ↔ s = "".
Proof. destruct s; simpl; split; congruence. Qed.

Lemma lstrip_blank (s : string) : lstrip s = "" ↔ all_space s = true.
Proof.
  induction s as [|c s IH]; simpl; [done|].
  destruct (isspace c); simpl; [done|]. split; discriminate.
Qed.

Lemma rstrip_blank (s : string) : rstrip s = "" ↔ all_space s = true.
Proof.
  induction s as [|c s IH]; simpl; [done|].
  destruct (isspace c); simpl.
  - destruct (rstrip s) eqn:E; simpl.
    + split; [intros _; by apply IH | done].
    + split; [discriminate|]. intros H. apply IH in H. discriminate.
  - split; discriminate.
Qed.

Lemma all_space_lstrip (s : string) :
  all_space (lstrip s) = true → all_space s = true.
Proof.
  induction s as [|c s IH]; simpl; [done|].
  destruct (isspace c) eqn:E; simpl; [done|]. by rewrite E.
Qed.

(** [strip] returns the empty string exactly on whitespace-only input. *)
Lemma strip_blank (s : string) : strip s = "" ↔ all_space s = true.
Proof.
  unfold strip. rewrite rstrip_blank. split.
  - apply all_space_lstrip.
  - intros H. apply lstrip_blank in H. by rewrite H.
Qed.

Lemma rstrip_idemp (s : string) : rstrip (rstrip s) = rstrip s.
Proof.
  induction s as [|c s IH]; simpl; [done|].
  destruct (isspace c && negb (truthy (rstrip s))) eqn:E; [done|].
  simpl. by rewrite IH, E.
Qed.

Lemma lstrip_rstrip_lstrip (s : string) :
  lstrip (rstrip (lstrip s)) = rstrip (lstrip s).
Proof.
  induction s as [|c s IH]; simpl; [done|].
  destruct (isspace c) eqn:E; [done|].
  simpl. rewrite E. simpl. by rewrite E.
Qed.

Lemma strip_idemp (s : string) : strip (strip s) = strip s.
Proof.
  unfold strip. by rewrite lstrip_rstrip_lstrip, rstrip_idemp.
Qed.

Lemma length_app_str (s t : string) :
  String.length (s +:+ t) = String.length s + String.length t.
Proof. induction s; simpl; [done|]. by rewrite IHs. Qed.

Lemma length_substring (n m : nat) (s : string) :
  n + m ≤ String.length s → String.length (substring n m s) = m.
Proof.
  revert n m. induction s as [|c s IH]; intros [|n] [|m]; simpl; intros H;
    try lia; try done.
  - f_equal. apply (IH 0 m). lia.
  - apply (IH n 0). lia.
  - apply (IH n (S m)). lia.
Qed.

Lemma rfind_app (c : ascii) (p t : string) (j : nat) :
  rfind c t = Some j → rfind c (p +:+ t) = Some (String.length p + j).
Proof.
  intros H. induction p as [|a p IH]; simpl; [done|]. by rewrite IH.
Qed.

Lemma length_lstrip (s : string) : String.length (lstrip s) ≤ String.length s.
Proof.
  induction s as [|c s IH]; simpl; [done|].
  destruct (isspace c); simpl; lia.
Qed.

Lemma truthy_app (x y : string) : truthy y = true → truthy (x +:+ y) = true.
Proof. by destruct x, y. Qed.

(** Text that starts with a character other than whitespace keeps its
    start when more is appended, and likewise at the end. *)
Lemma lstrip_app (x y : string) :
  truthy x = true → lstrip x = x → lstrip (x +:+ y) = x +:+ y.
Proof.
  destruct x as [|c x]; [done|]. intros _. simpl.
  destruct (isspace c); [|done].
  intros H. pose proof (length_lstrip x) as Hl. rewrite H in Hl. simpl in Hl. lia.
Qed.

Lemma rstrip_app (x y : string) :
  truthy (rstrip y) = true → rstrip (x +:+ y) = x +:+ rstrip y.
Proof.
  intros Hy. induction x as [|c x IH]; simpl; [done|].
  rewrite IH, (truthy_app x (rstrip y) Hy). simpl. by rewrite andb_false_r.
Qed.

Lemma join_lstrip (sep p : string) (l : list string) :
  truthy p = true → lstrip p = p → lstrip (join sep (p :: l)) = join sep (p :: l).
Proof.
  intros Hp Hl. destruct l as [|q l]; [done|].
  change (join sep (p :: q :: l)) with (p +:+ sep +:+ join sep (q :: l)).
  by apply lstrip_app.
Qed.

Lemma join_rstrip (sep x : string) (l : list string) :
  truthy x = true → rstrip x = x →
  rstrip (join sep (l ++ [x])) = join sep (l ++ [x])
  ∧ truthy (join sep (l ++ [x])) = true.
Proof.
  intros Hx Hr. induction l as [|a l [IH1 IH2]]; [done|].
  assert (join sep ((a :: l) ++ [x]) = a +:+ sep +:+ join sep (l ++ [x])) as ->.
  { simpl. by destruct (l ++ [x]) eqn:E; [destruct l|]. }
  assert (rstrip (sep +:+ join sep (l ++ [x])) = sep +:+ join sep (l ++ [x])) as Hs.
  { rewrite rstrip_app; by rewrite IH1. }
  split.
  - rewrite rstrip_app; rewrite Hs; [done|]. by apply truthy_app.
  - by do 2 apply truthy_app.
Qed.

End StringFacts.

(** ** The temporary path *)

Section PathFacts.

(** The temporary path is never the final path: its name ends in a suffix
    that holds two dots, and a suffix taken off a name holds one. *)
Lemma with_suffix_partial_ne (p tmp : Path) :
  with_suffix p ".jsonl.partial" = Some tmp → tmp ≠ p.
Proof.
  destruct p as [d name]. unfold with_suffix. simpl.
  destruct (truthy name) eqn:Hn; simpl; [|done].
  intros [= <-] [= Heq]. revert Heq.
  unfold path_suffix.
  destruct (rfind "." name) as [i|] eqn:Hr; simpl.
  - destruct ((0 <? i) && (i <? String.length name - 1)) eqn:Hi; simpl.
    + apply andb_true_iff in Hi as [_ Hi%Nat.ltb_lt].
      assert (String.length (substring i (String.length name - i) name)
              = String.length name - i) as Hl by (apply length_substring; lia).
      destruct (substring i (String.length name - i) name) as [|a old] eqn:Hs;
        simpl in *; [lia|].
      replace (String.length name - S (String.length old)) with i by lia.
      intros Heq.
      pose proof (rfind_app "." (substring 0 i name) ".jsonl.partial" 6 eq_refl) as Hf.
      rewrite Heq, Hr, length_substring in Hf by lia.
      injection Hf. lia.
    + intros Heq. apply (f_equal String.length) in Heq.
      rewrite length_app_str in Heq. simpl in Heq. lia.
  - intros Heq. apply (f_equal String.length) in Heq.
    rewrite length_app_str in Heq. simpl in Heq. lia.
Qed.

End PathFacts.

(** ** The reader loop *)

Section ReaderFacts.

Context {A : Type}.
Implicit Types (opts : options) (body : Element → list A * Element).

(** One token yields what the body yields for the element it closes, and
    nothing when it closes none. *)
Lemma feed_Next opts body t tok t' ys :
  feed opts body t tok = Next t' ys →
  ys = from_option (λ e, (body e).1) [] (closed_by t tok).
Proof.
  unfold feed, closed_by.
  destruct tok as [tg attrs|s| | | |]; destruct (open_elems t) as [|e st];
    destruct (closed_root t); destruct (recover opts); simpl;
    try destruct (all_space s); try destruct (body e) as [ys' e'];
    intros H; by simplify_eq.
Qed.


(** Whatever holds for every value the body can yield holds for every
    value of the iteration. *)
Lemma iterparse_Forall (P : A → Prop) opts body t fh :
  (∀ e, Forall P (body e).1) → Forall P (iterparse opts body t fh).1.
Proof.
  intros Hbody. revert t. induction fh as [|tok fh IH]; intros t; simpl.
  { constructor. }
  destruct (feed opts body t tok) as [t' ys|] eqn:Ef; [|constructor].
  specialize (IH t'). destruct (iterparse opts body t' fh) as [ys' out].
  simpl in *. apply Forall_app. split; [|done].
  apply feed_Next in Ef as ->.
  destruct (closed_by t tok); simpl; [done|constructor].
Qed.

Lemma feed_observing opts body t tok :
  feed opts (observing body) t tok =
  match feed opts body t tok with
  | Stop out => Stop out
  | Next t' ys => Next t' (option_list (closed_by t tok))
  end.
Proof.
  unfold feed, observing, closed_by.
  destruct tok as [tg attrs|s| | | |]; destruct (open_elems t) as [|e st];
    destruct (closed_root t); destruct (recover opts); simpl;
    try destruct (all_space s); try destruct (body e); done.
Qed.

(** The values of an iteration are those of the body on the successive
    "end" events, and the iteration ends as the events do. *)
Lemma iterparse_observing opts body t fh :
  iterparse opts body t fh =
  (flat_map (λ e, (body e).1) (iterparse opts (observing body) t fh).1,
   (iterparse opts (observing body) t fh).2).
Proof.
  revert t. induction fh as [|tok fh IH]; intros t; simpl; [done|].
  rewrite feed_observing.
  destruct (feed opts body t tok) as [t' ys|] eqn:Ef; [|done].
  rewrite (IH t').
  destruct (iterparse opts (observing body) t' fh) as [evs out]. simpl.
  f_equal. rewrite flat_map_app. f_equal.
  apply feed_Next in Ef as ->.
  destruct (closed_by t tok); simpl; [by rewrite app_nil_r|done].
Qed.

End ReaderFacts.

(** ** Well-formed documents *)

Section Documents.

Context {A : Type}.
Variables (opts : options) (body : Element → list A * Element).

Lemma reads_app (t t' t'' : tree) (a b : list token) (ys ys' : list A) :
  reads opts body t a ys t' → reads opts body t' b ys' t'' →
  reads opts body t (a ++ b) (ys ++ ys') t''.
Proof.
  induction 1 as [t|t t1 t2 tok toks y1 y2 Hf _ IH]; intros Hb; simpl; [done|].
  rewrite <- app_assoc. econstructor; [exact Hf|]. by apply IH.
Qed.

Lemma reads_one (t t' : tree) (tok : token) (ys : list A) :
  feed opts body t tok = Next t' ys → reads opts body t [tok] ys t'.
Proof.
  intros Hf. rewrite <- (app_nil_r ys). econstructor; [exact Hf|constructor].
Qed.

(** What has been read without exception is a prefix of the iteration. *)
Lemma reads_iterparse (t t' : tree) (a rest : list token) (ys : list A) :
  reads opts body t a ys t' →
  iterparse opts body t (a ++ rest)
  = (ys ++ (iterparse opts body t' rest).1, (iterparse opts body t' rest).2).
Proof.
  induction 1 as [t|t t1 t2 tok toks y1 y2 Hf _ IH]; simpl.
  - by destruct (iterparse opts body t rest).
  - rewrite Hf, IH. simpl. by rewrite app_assoc.
Qed.

Lemma reads_tree_after (t t' : tree) (a : list token) (ys : list A) :
  reads opts body t a ys t' → tree_after opts body t a = t'.
Proof.
  induction 1 as [t|t t1 t2 tok toks y1 y2 Hf _ IH]; simpl; [done|].
  by rewrite Hf.
Qed.

End Documents.

Section DocumentEvents.

Context {A : Type}.
Variables (opts : options) (body : Element → list A * Element).

Lemma to_tokens_unfold (tg : string) (attrs : gmap string string)
    (tx : option string) (cs : list Element) (tl : option string) :
  to_tokens (Elem tg attrs tx cs tl)
  = TStart tg attrs :: map TText (opt_list tx)
    ++ flat_map (λ c, to_tokens c ++ map TText (opt_list (tail c))) cs
    ++ [TEnd].
Proof.
  simpl. do 3 f_equal.
  induction cs as [|c cs IH]; simpl; [done|]. by rewrite IH, <- app_assoc.
Qed.

Lemma postorder_unfold (e : Element) :
  postorder e = flat_map postorder (children e) ++ [e].
Proof.
  by destruct e as [tg attrs tx cs tl].
Qed.

(** Character data changes neither the tag of the open element nor whether
    the stream can go on. *)
Lemma reads_text (q : Element) (st : list Element) (r : option Element)
    (o : option string) :
  ∃ q', reads opts (observing body)
          {| open_elems := q :: st; closed_root := r |}
          (map TText (opt_list o)) []
          {| open_elems := q' :: st; closed_root := r |}
        ∧ tag q' = tag q.
Proof.
  destruct o as [s|]; simpl.
  - exists (add_text s q). split; [by apply reads_one|].
    unfold add_text. by destruct (children q).
  - exists q. split; [constructor|done].
Qed.

(** A well-formed element below an open element, or as the document
    element of an empty tree, is read without exception; its "end" events
    are those of its nodes in post-order, tag by tag. *)
Lemma reads_element (e : Element) :
  ∀ (st : list Element) (r : option Element),
    (st = [] → r = None) →
    ∃ e' evs,
      reads opts (observing body)
        {| open_elems := st; closed_root := r |} (to_tokens e) evs
        (attach e' st {| open_elems := st; closed_root := r |})
      ∧ map tag evs = map tag (postorder e).
Proof.
  induction e as [tg attrs tx cs tl IH] using Element_ind_children.
  intros st r Hr.
  rewrite to_tokens_unfold, postorder_unfold. cbn [children].
  set (t0 := {| open_elems := st; closed_root := r |}).
  assert (feed opts (observing body) t0 (TStart tg attrs)
          = Next {| open_elems := Elem tg attrs None [] None :: st;
                    closed_root := r |} []) as Hstart.
  { unfold feed, t0. simpl. destruct st as [|p st]; [|done].
    by rewrite (Hr eq_refl). }
  destruct (reads_text (Elem tg attrs None [] None) st r tx)
    as (q1 & Htext & Htag1).
  assert (∀ q, ∃ q' evs,
            reads opts (observing body)
              {| open_elems := q :: st; closed_root := r |}
              (flat_map (λ c, to_tokens c ++ map TText (opt_list (tail c))) cs)
              evs {| open_elems := q' :: st; closed_root := r |}
            ∧ tag q' = tag q
            ∧ map tag evs = map tag (flat_map postorder cs)) as Hcs.
  { clear Hstart Htext Htag1 q1 t0.
    induction IH as [|c cs Hc _ IHcs]; intros q; simpl.
    - exists q, []. split; [constructor|done].
    - destruct (Hc (q :: st) r ltac:(done)) as (c' & evc & Hrc & Htc).
      simpl in Hrc.
      destruct (reads_text (add_child c' q) st r (tail c)) as (q2 & Hr2 & Ht2).
      destruct (IHcs q2) as (q3 & evs & Hr3 & Ht3 & Hte).
      exists q3, (evc ++ evs). split_and!.
      + rewrite <- app_assoc.
        eapply reads_app; [exact Hrc|].
        change evs with ([] ++ evs). eapply reads_app; [exact Hr2|exact Hr3].
      + by rewrite Ht3, Ht2.
      + by rewrite !map_app, Htc, Hte. }
  destruct (Hcs q1) as (q2 & evs & Hreads & Htag2 & Htags).
  exists (body q2).2, (evs ++ [q2]). split.
  - change (evs ++ [q2]) with ([] ++ evs ++ [q2]).
    econstructor; [exact Hstart|].
    change (evs ++ [q2]) with ([] ++ evs ++ [q2]).
    eapply reads_app; [exact Htext|].
    eapply reads_app; [exact Hreads|].
    apply reads_one. unfold feed, observing. simpl. done.
  - rewrite !map_app, Htags. simpl. by rewrite Htag2, Htag1.
Qed.

(** A well-formed document is read to the end; the loop ends normally. *)
Lemma iterparse_document (doc : Element) :
  recover opts = false →
  ∃ evs, iterparse opts (observing body) empty_tree (to_tokens doc) = (evs, Done)
         ∧ map tag evs = map tag (postorder doc).
Proof.
  intros Hopts.
  destruct (reads_element doc [] None ltac:(done)) as (doc' & evs & Hr & Ht).
  exists evs. split; [|done].
  pose proof (reads_iterparse opts (observing body) _ _ _ [] _ Hr) as H.
  rewrite app_nil_r in H. unfold empty_tree. rewrite H. simpl.
  unfold at_eof. rewrite Hopts. simpl. by rewrite app_nil_r.
Qed.

End DocumentEvents.

(** ** The loop body *)

Section LoopBody.

Variable pp : option PubmedParser.

Lemma nonblank_test (o : option string) :
  truthy_opt o && truthy (strip (or_empty o)) = negb (blank o).
Proof.
  destruct o as [s|]; simpl; [|done].
  destruct (truthy s) eqn:Hs.
  - simpl. destruct (all_space s) eqn:Hb.
    + apply strip_blank in Hb. by rewrite Hb.
    + apply truthy_true. rewrite strip_blank. congruence.
  - apply truthy_false in Hs as ->. done.
Qed.

Lemma or_empty_default (o : option string) : or_empty o = default "" o.
Proof. by destruct o as [[|a s]|]. Qed.

Lemma nonblank_trimmed (c : Element) :
  negb (blank (text c)) = truthy (trimmed_text c).
Proof.
  unfold trimmed_text. rewrite or_empty_default.
  destruct (text c) as [s|]; simpl; [|done].
  destruct (all_space s) eqn:Hb; simpl.
  - apply strip_blank in Hb. by rewrite Hb.
  - symmetry. apply truthy_true. rewrite strip_blank. congruence.
Qed.

Lemma tombstone_entries (l : list Element) :
  flat_map tombstone_entry l
  = map (λ c, tombstone (trimmed_text c))
      (List.filter (λ c, negb (blank (text c))) l).
Proof.
  induction l as [|c l IH]; simpl; [done|].
  unfold tombstone_entry at 1. rewrite nonblank_test.
  destruct (negb (blank (text c))); simpl; by rewrite IH.
Qed.

Lemma loop_body_citation (elem : Element) :
  tag elem = "MedlineCitation" →
  loop_body pp elem = (option_list (parse_article_record pp elem), clear elem).
Proof.
  intros H. unfold loop_body. rewrite H. simpl.
  by destruct (parse_article_record pp elem).
Qed.

Lemma loop_body_deletion (elem : Element) :
  tag elem = "DeleteCitation" →
  loop_body pp elem
  = (flat_map tombstone_entry (findall [Child "PMID"] elem), clear elem).
Proof. intros H. unfold loop_body. by rewrite H. Qed.

Lemma parse_article_record_Some (medline : Element) (rec : PubmedRecord) :
  parse_article_record pp medline = Some rec →
  pmid rec = parse_pmid medline ∧ parse_pmid medline ≠ "".
Proof.
  unfold parse_article_record.
  destruct (truthy (parse_pmid medline)) eqn:Ht; simpl; [|done].
  intros [= <-]. simpl. split; [done|]. by apply truthy_true.
Qed.

Lemma parse_article_record_None (medline : Element) :
  parse_article_record pp medline = None ↔ parse_pmid medline = "".
Proof.
  unfold parse_article_record.
  destruct (truthy (parse_pmid medline)) eqn:Ht; simpl.
  - apply truthy_true in Ht. split; [done|]. intros; contradiction.
  - apply truthy_false in Ht. done.
Qed.

Lemma loop_body_ids (elem : Element) :
  Forall (λ r, pmid r ≠ "") (loop_body pp elem).1.
Proof.
  unfold loop_body.
  destruct (String.eqb (tag elem) "MedlineCitation"); simpl.
  { destruct (parse_article_record pp elem) as [rec|] eqn:E; [|constructor].
    apply parse_article_record_Some in E as [E1 E2].
    constructor; [by rewrite E1 | constructor]. }
  destruct (String.eqb (tag elem) "DeleteCitation"); simpl; [|constructor].
  rewrite tombstone_entries. apply Forall_map, List.Forall_forall.
  intros c [_ Hc]%List.filter_In. simpl. unfold trimmed_text.
  rewrite <- nonblank_test in Hc.
  apply andb_true_iff in Hc as [_ Hc]. by apply truthy_true.
Qed.

(** The step of the loop at the end tag of the innermost open element. *)
Lemma feed_TEnd (t : tree) (elem : Element) (st : list Element) :
  open_elems t = elem :: st →
  feed iterparse_defaults (loop_body pp) t TEnd
  = Next (attach (loop_body pp elem).2 st t) (loop_body pp elem).1.
Proof. intros H. unfold feed. rewrite H. by destruct (loop_body pp elem). Qed.

End LoopBody.

(** ** Claims about identifiers and tombstones *)

(** C3. Every record the generator yields, full record or tombstone, has a
    non-empty [pmid]; and at the end tag of a citation element from which no
    identifier is resolved the loop yields no record and goes on (the step
    is a [Next], not a [Stop]), with the element cleared. *)
Theorem yielded_records_have_id (pp : option PubmedParser) (fh : list token) :
  Forall (λ r, pmid r ≠ "") (iter_records_from_xml_gz pp fh).1 ∧
  ∀ (t : tree) (elem : Element) (st : list Element),
    tag elem = "MedlineCitation" → parse_pmid elem = "" →
    open_elems t = elem :: st →
    feed iterparse_defaults (loop_body pp) t TEnd
    = Next (attach (clear elem) st t) [].
Proof.
  split.
  - apply iterparse_Forall, loop_body_ids.
  - intros t elem st Htag Hid Ho.
    rewrite (feed_TEnd pp t elem st Ho), loop_body_citation by done.
    apply (parse_article_record_None pp) in Hid. by rewrite Hid.
Qed.

Lemma yielded_records_have_id_witness :
  Forall (λ r, pmid r ≠ "")
    (iter_records_from_xml_gz None (to_tokens Samples.deletion_with_blank)).1 ∧
  feed iterparse_defaults (loop_body None)
    {| open_elems := [Samples.anonymous_citation]; closed_root := None |} TEnd
  = Next (attach (clear Samples.anonymous_citation) []
            {| open_elems := [Samples.anonymous_citation]; closed_root := None |}) [].
Proof.
  destruct (yielded_records_have_id None (to_tokens Samples.deletion_with_blank))
    as [H1 H2].
  split; [exact H1|]. apply H2; reflexivity.
Defined.

(** C4, as amended. At the end tag of a deletion-list element the loop
    yields one tombstone for each [PMID] sub-element whose text is not
    blank, in order: its [pmid] is the trimmed text, [docno] repeats it,
    [is_deleted] is set and every other field is empty. There are at most
    as many tombstones as [PMID] sub-elements, and exactly as many when
    none of them is blank. The element is cleared afterwards. *)
Theorem delete_citation_tombstones (pp : option PubmedParser)
    (t : tree) (elem : Element) (st : list Element) :
  tag elem = "DeleteCitation" → open_elems t = elem :: st →
  ∃ recs : list PubmedRecord,
    feed iterparse_defaults (loop_body pp) t TEnd
    = Next (attach (clear elem) st t) recs
    ∧ map pmid recs
      = List.filter truthy (map trimmed_text (findall [Child "PMID"] elem))
    ∧ Forall bare_tombstone recs
    ∧ length recs ≤ length (findall [Child "PMID"] elem)
    ∧ (Forall (λ c, blank (text c) = false) (findall [Child "PMID"] elem) →
       length recs = length (findall [Child "PMID"] elem)).
Proof.
  intros Htag Ho.
  exists (flat_map tombstone_entry (findall [Child "PMID"] elem)).
  split; [|clear Ho t st].
  { by rewrite (feed_TEnd pp t elem st Ho), loop_body_deletion. }
  rewrite tombstone_entries.
  generalize (findall [Child "PMID"] elem). intros l.
  repeat split.
  - induction l as [|c l IH]; simpl; [done|].
    rewrite (nonblank_trimmed c).
    destruct (truthy (trimmed_text c)); simpl; by rewrite IH.
  - apply Forall_map, List.Forall_forall. intros c _. by repeat split.
  - rewrite length_map. apply List.filter_length_le.
  - intros Hall. rewrite length_map. f_equal.
    induction Hall as [|c l Hc _ IH]; simpl; [done|]. by rewrite Hc, IH.
Qed.

Lemma delete_citation_tombstones_witness :
  ∃ recs : list PubmedRecord,
    feed iterparse_defaults (loop_body None)
      {| open_elems := [Samples.deletion_with_blank]; closed_root := None |} TEnd
    = Next (attach (clear Samples.deletion_with_blank) []
              {| open_elems := [Samples.deletion_with_blank]; closed_root := None |})
        recs
    ∧ map pmid recs = ["1"].
Proof.
  destruct (delete_citation_tombstones None
              {| open_elems := [Samples.deletion_with_blank]; closed_root := None |}
              Samples.deletion_with_blank [] eq_refl eq_refl)
    as (recs & H1 & H2 & _).
  exists recs. split; [exact H1 | exact H2].
Defined.

(** C4 as worded fails: a deletion list with two [PMID] sub-elements, one of
    them blank, yields one tombstone. *)
Lemma one_tombstone_per_child_fails :
  ¬ one_tombstone_per_child None Samples.deletion_with_blank.
Proof. unfold one_tombstone_per_child. vm_compute. discriminate. Qed.

(** C10. For a deletion-list element the loop yields, in order, one
    tombstone for each [PMID] sub-element whose text is not blank (absent,
    empty or whitespace-only text yields none), and the [pmid] and [docno]
    of that tombstone are the whitespace-stripped text of the sub-element. *)
Theorem tombstone_ids_are_trimmed_text (pp : option PubmedParser) (elem : Element) :
  tag elem = "DeleteCitation" →
  let kept := List.filter (λ c, negb (blank (text c))) (findall [Child "PMID"] elem) in
  map pmid (loop_body pp elem).1 = map (λ c, strip (default "" (text c))) kept
  ∧ map docno (loop_body pp elem).1 = map (λ c, strip (default "" (text c))) kept
  ∧ Forall (λ c, text c ≠ None ∧ text c ≠ Some ""
                 ∧ strip (default "" (text c)) ≠ "") kept.
Proof.
  intros Htag kept. rewrite loop_body_deletion by done. simpl.
  rewrite tombstone_entries. fold kept.
  assert (Forall (λ c, text c ≠ None ∧ text c ≠ Some ""
                       ∧ strip (default "" (text c)) ≠ "") kept) as Hk.
  { apply List.Forall_forall. intros c [_ Hc]%List.filter_In.
    destruct (text c) as [s|]; simpl in *; [|done].
    split; [done|]. split.
    - intros [= ->]. done.
    - rewrite strip_blank. by destruct (all_space s). }
  split_and!; [| |done].
  - rewrite map_map. apply map_ext. intros c. simpl.
    unfold trimmed_text. by rewrite or_empty_default.
  - rewrite map_map. apply map_ext. intros c. simpl.
    unfold trimmed_text. by rewrite or_empty_default.
Qed.

Lemma tombstone_ids_are_trimmed_text_witness :
  map pmid (loop_body None Samples.deletion_with_blank).1 = ["1"].
Proof.
  exact (proj1 (tombstone_ids_are_trimmed_text None Samples.deletion_with_blank eq_refl)).
Defined.

(** ** Malformed markup *)


(** C1 on the code. A shard with a region of malformed markup between two
    citations: the generator yields the first record and then raises
    [XMLSyntaxError], so the second record is never produced. The loop
    iterates [etree.iterparse] with its default options; with the options of
    the [parser] object that the function builds and does not use, the same
    stream yields both records and ends normally. *)
Theorem malformed_markup_aborts_shard :
  iter_records_from_xml_gz None Samples.shard_with_defect
  = ([Samples.bare_record "1"], Raised XMLSyntaxError)
  ∧ iterparse (XMLParser true true) (loop_body None) empty_tree
      Samples.shard_with_defect
    = ([Samples.bare_record "1"; Samples.bare_record "2"], Done).
Proof. split; vm_compute; reflexivity. Qed.

(** ** The output file *)

Section OutputFile.

Variable pp : option PubmedParser.

Lemma write_lines (tmp : Path) (recs : list PubmedRecord) (fs : FS) (c : string) :
  fs !! tmp = Some c →
  fold_left (λ fs rec, write tmp (json_dumps rec +:+ nl) fs) recs fs !! tmp
  = Some (fold_left (λ content rec, content +:+ (json_dumps rec +:+ nl)) recs c).
Proof.
  revert fs c. induction recs as [|r recs IH]; intros fs c Hc; simpl; [done|].
  apply IH. unfold write. by rewrite lookup_alter_eq, Hc.
Qed.

Lemma write_lines_other (tmp p : Path) (recs : list PubmedRecord) (fs : FS) :
  p ≠ tmp →
  fold_left (λ fs rec, write tmp (json_dumps rec +:+ nl) fs) recs fs !! p
  = fs !! p.
Proof.
  intros Hp. revert fs. induction recs as [|r recs IH]; intros fs; simpl; [done|].
  rewrite IH. unfold write. by rewrite lookup_alter_ne.
Qed.

End OutputFile.

(** C2. The records go to the temporary path, which differs from the final
    path. The call ends as the iteration does. When the iteration is
    exhausted the final path holds one line per record and the temporary
    file is gone; when the iteration raises, the final path is as it was
    before the call (absent, or the file of an earlier run) and the lines
    written so far are left at the temporary path. No other path changes.
    A final path without a name raises before anything is written. *)
Theorem xml_gz_to_jsonl_atomic (pp : option PubmedParser) (fh : list token)
    (jsonl_path : Path) (fs : FS) :
  match with_suffix jsonl_path ".jsonl.partial" with
  | None => xml_gz_to_jsonl pp fh jsonl_path fs = (fs, Raised ValueError)
  | Some tmp =>
      tmp ≠ jsonl_path
      ∧ (xml_gz_to_jsonl pp fh jsonl_path fs).2 = (iter_records_from_xml_gz pp fh).2
      ∧ (∀ p : Path, p ≠ tmp → p ≠ jsonl_path →
           (xml_gz_to_jsonl pp fh jsonl_path fs).1 !! p = fs !! p)
      ∧ match (iter_records_from_xml_gz pp fh).2 with
        | Done =>
            (xml_gz_to_jsonl pp fh jsonl_path fs).1 !! jsonl_path
            = Some (written (iter_records_from_xml_gz pp fh).1)
            ∧ (xml_gz_to_jsonl pp fh jsonl_path fs).1 !! tmp = None
        | Raised _ =>
            (xml_gz_to_jsonl pp fh jsonl_path fs).1 !! jsonl_path = fs !! jsonl_path
            ∧ (xml_gz_to_jsonl pp fh jsonl_path fs).1 !! tmp
              = Some (written (iter_records_from_xml_gz pp fh).1)
        end
  end.
Proof.
  unfold xml_gz_to_jsonl.
  destruct (with_suffix jsonl_path ".jsonl.partial") as [tmp|] eqn:Hs; [|done].
  pose proof (with_suffix_partial_ne _ _ Hs) as Hne.
  destruct (iter_records_from_xml_gz pp fh) as [recs out]. simpl.
  pose proof (write_lines tmp recs (open_w tmp fs) ""
                (lookup_insert_eq fs tmp "")) as Htmp.
  assert (∀ p, p ≠ tmp →
            fold_left (λ fs rec, write tmp (json_dumps rec +:+ nl) fs) recs
              (open_w tmp fs) !! p = fs !! p) as Hother.
  { intros p Hp. rewrite write_lines_other by done.
    unfold open_w. by rewrite lookup_insert_ne. }
  split; [done|].
  destruct out as [|e]; simpl.
  - unfold replace. rewrite Htmp.
    split; [done|]. split_and!.
    + intros p Hp1 Hp2.
      rewrite lookup_insert_ne, lookup_delete_ne by done. by apply Hother.
    + by rewrite lookup_insert_eq.
    + by rewrite lookup_insert_ne, lookup_delete_eq.
  - split; [done|]. split_and!; [|by apply Hother|done].
    intros p Hp _. by apply Hother.
Qed.

(** A shard that breaks off after its first citation leaves the file of the
    earlier run in place and one line at the temporary path. *)
Example truncated_shard_keeps_previous_file :
  let result :=
    xml_gz_to_jsonl None Samples.truncated_shard Samples.final_path
      Samples.previous_run in
  result.2 = Raised EOFError
  ∧ result.1 !! Samples.final_path = Some "old"
  ∧ result.1 !! ("out", "pubmed25n0001.jsonl.partial")
    = Some (json_dumps (Samples.bare_record "1") +:+ nl).
Proof. repeat split; vm_compute; exact eq_refl. Qed.

Lemma xml_gz_to_jsonl_atomic_witness :
  (xml_gz_to_jsonl None Samples.truncated_shard Samples.final_path
     Samples.previous_run).1 !! Samples.final_path
  = Some "old".
Proof.
  pose proof (xml_gz_to_jsonl_atomic None Samples.truncated_shard
                Samples.final_path Samples.previous_run) as H.
  change (with_suffix Samples.final_path ".jsonl.partial")
    with (Some ("out", "pubmed25n0001.jsonl.partial")) in H.
  destruct H as (_ & _ & _ & H).
  change ((iter_records_from_xml_gz None Samples.truncated_shard).2)
    with (Raised EOFError) in H.
  destruct H as [H _]. rewrite H. reflexivity.
Defined.

(** ** Counting records *)

Section Counting.

Variable pp : option PubmedParser.

Lemma iter_records_end_events (fh : list token) :
  (iter_records_from_xml_gz pp fh).1
  = flat_map (λ e, (loop_body pp e).1) (end_events pp fh).
Proof.
  unfold iter_records_from_xml_gz, end_events.
  by rewrite iterparse_observing.
Qed.

Lemma citation_ids (evs : list Element) :
  forallb (λ e, negb (has_tag "DeleteCitation" e)
                && (negb (has_tag "MedlineCitation" e) || truthy (parse_pmid e)))
    evs = true →
  map pmid (flat_map (λ e, (loop_body pp e).1) evs)
  = map parse_pmid (List.filter (has_tag "MedlineCitation") evs).
Proof.
  induction evs as [|e evs IH]; simpl; [done|].
  intros (He & Hevs)%andb_true_iff. apply andb_true_iff in He as [Hd Hc].
  rewrite map_app, IH by done. clear IH Hevs.
  unfold loop_body, has_tag in *.
  destruct (String.eqb (tag e) "MedlineCitation"); simpl in *.
  - destruct (parse_article_record pp e) as [rec|] eqn:E; simpl.
    + apply parse_article_record_Some in E as [-> _]. done.
    + apply parse_article_record_None in E. rewrite E in Hc. done.
  - apply negb_true_iff in Hd. by rewrite Hd.
Qed.

End Counting.

Lemma filter_tag_length (t : string) (l1 l2 : list Element) :
  map tag l1 = map tag l2 →
  length (List.filter (has_tag t) l1) = length (List.filter (has_tag t) l2).
Proof.
  revert l2. induction l1 as [|x l1 IH]; intros [|y l2]; simpl; try done.
  intros [= Hxy Hl]. specialize (IH l2 Hl).
  assert (has_tag t x = has_tag t y) as -> by (unfold has_tag; by rewrite Hxy).
  destruct (has_tag t y); simpl; by rewrite IH.
Qed.

(** A well-formed document is processed to its end, and its citation
    elements are met one by one. *)
Lemma iter_records_document (pp : option PubmedParser) (doc : Element) :
  (iter_records_from_xml_gz pp (to_tokens doc)).2 = Done
  ∧ length (citations pp (to_tokens doc)) = length (citation_nodes doc).
Proof.
  destruct (iterparse_document iterparse_defaults (loop_body pp) doc eq_refl)
    as (evs & Hrun & Htags).
  unfold iter_records_from_xml_gz, citations, citation_nodes, end_events.
  rewrite iterparse_observing, Hrun. simpl. split; [done|].
  by apply filter_tag_length.
Qed.

(** C8, as amended. In a shard of well-formed citations the records
    yielded are, in order, one per citation element, each carrying the
    identifier resolved from its element; so there are as many records as
    citation elements, and the identifiers of the records are pairwise
    distinct exactly when those of the citations are (the generator does
    not look for repeats). When the shard is a well-formed document, the
    iteration ends normally and the records are as many as the citation
    elements of the document. *)
Theorem one_record_per_citation (pp : option PubmedParser) (fh : list token) :
  citations_only pp fh = true →
  map pmid (iter_records_from_xml_gz pp fh).1 = map parse_pmid (citations pp fh)
  ∧ length (iter_records_from_xml_gz pp fh).1 = length (citations pp fh)
  ∧ (NoDup (map pmid (iter_records_from_xml_gz pp fh).1)
     ↔ NoDup (map parse_pmid (citations pp fh)))
  ∧ ∀ doc, fh = to_tokens doc →
      (iter_records_from_xml_gz pp fh).2 = Done
      ∧ length (iter_records_from_xml_gz pp fh).1 = length (citation_nodes doc).
Proof.
  intros Hwf.
  assert (map pmid (iter_records_from_xml_gz pp fh).1
          = map parse_pmid (citations pp fh)) as Hids.
  { rewrite iter_records_end_events. by apply citation_ids. }
  assert (length (iter_records_from_xml_gz pp fh).1 = length (citations pp fh))
    as Hlen.
  { apply (f_equal length) in Hids. by rewrite !length_map in Hids. }
  split_and!; [done|done|by rewrite Hids|].
  intros doc ->. destruct (iter_records_document pp doc) as [Hdone Hn].
  split; [done|]. by rewrite Hlen.
Qed.

Lemma one_record_per_citation_witness :
  length (iter_records_from_xml_gz None Samples.shard_with_repeat).1
  = length (citations None Samples.shard_with_repeat).
Proof.
  refine (proj1 (proj2 (one_record_per_citation None Samples.shard_with_repeat _))).
  vm_compute. exact eq_refl.
Defined.

(** C8 as worded fails: two well-formed citations with the same identifier
    yield two records with the same [pmid]. *)
Lemma count_and_unique_ids_fails :
  ¬ count_and_unique_ids None Samples.shard_with_repeat.
Proof.
  intros H. destruct H as [_ Hnd]; [vm_compute; reflexivity|].
  vm_compute in Hnd. apply NoDup_cons in Hnd as [Hin _].
  apply Hin. by left.
Qed.

(** ** What stays in the tree *)

Section Release.

Variable pp : option PubmedParser.

Lemma size_children (e : Element) :
  size e = S (sum_list (map size (children e))).
Proof.
  destruct e as [tg attrs tx cs tl]. simpl. f_equal.
  induction cs as [|c cs IH]; simpl; [done|]. by rewrite IH.
Qed.

(** Citations that have been read and cleared stay attached to the open
    element around them. *)
Lemma tree_after_citations (r : Element) (n : nat) :
  tree_after iterparse_defaults (loop_body pp)
    {| open_elems := [r]; closed_root := None |}
    (concat (replicate n (to_tokens (Samples.citation "1"))))
  = {| open_elems :=
         [Elem (tag r) (attrib r) (text r)
            (children r ++ replicate n (clear (Samples.citation "1"))) (tail r)];
       closed_root := None |}.
Proof.
  revert r. induction n as [|n IH]; intros r.
  - simpl. rewrite app_nil_r. by destruct r.
  - cbn -[tree_after replicate concat].
    change (tree_after iterparse_defaults (loop_body pp)
              {| open_elems := [r]; closed_root := None |}
              (TStart "MedlineCitation" ∅ :: TStart "PMID" ∅ :: TText "1"
               :: TEnd :: TEnd
               :: concat (replicate n (to_tokens (Samples.citation "1"))))
            = {| open_elems :=
                   [Elem (tag r) (attrib r) (text r)
                      (children r
                       ++ clear (Samples.citation "1")
                          :: replicate n (clear (Samples.citation "1")))
                      (tail r)];
                 closed_root := None |}).
    cbn -[replicate concat to_tokens].
    rewrite IH. simpl. by rewrite <- app_assoc.
Qed.

(** The nodes held grow with the number of citations already read. *)
Lemma citation_run_resident (n : nat) :
  resident (tree_at pp (Samples.citation_run n)) = S n.
Proof.
  unfold tree_at, Samples.citation_run. simpl.
  rewrite tree_after_citations. unfold resident. simpl.
  rewrite Nat.add_0_r, Nat.add_0_r. f_equal.
  induction n as [|n IH]; simpl; [done|]. by rewrite IH.
Qed.

End Release.

(** C9 on the code. After 1001 citations the open document element holds
    1001 sub-elements and has not been released, and the tree holds 1002
    nodes although every citation has been processed and cleared: the
    test on the number of sub-elements runs at an element's own end tag
    only, and clearing an element leaves it in the element around it. *)
Lemma released_beyond_bound_fails :
  released_beyond_bound None (Samples.citation_run 1001) = false
  ∧ resident (tree_at None (Samples.citation_run 1001)) = 1002.
Proof. split; vm_compute; exact eq_refl. Qed.

(** ** ElementPath *)

Section PathQueries.

Lemma findall_child (t : string) (e : Element) :
  findall [Child t] e = List.filter (has_tag t) (children e).
Proof. unfold findall. simpl. apply app_nil_r. Qed.

Lemma head_filter {X} (P : X → bool) (l : list X) :
  head (List.filter P l) = List.find P l.
Proof. induction l as [|x l IH]; simpl; [done|]. by destruct (P x). Qed.

(** [find] with a tag returns the first sub-element with that tag. *)
Lemma find_child (t : string) (e : Element) :
  find [Child t] e = List.find (has_tag t) (children e).
Proof. unfold find. by rewrite findall_child, head_filter. Qed.

Lemma findall_keywords (medline : Element) :
  findall [Descendant "KeywordList"; Child "Keyword"] medline
  = keyword_elements medline.
Proof.
  unfold findall, keyword_elements. simpl. by rewrite app_nil_r.
Qed.

End PathQueries.

(** ** Identifier resolution *)

Lemma parse_pmid_cases (medline : Element) :
  parse_pmid medline
  = let fallback :=
      from_option (λ x, strip (default "" (text x))) ""
        (find [Child "PubmedData"; Child "ArticleIdList"] medline
         ≫= find [ChildAttr "ArticleId" "IdType" "pubmed"]) in
    match List.find (has_tag "PMID") (children medline) with
    | Some p => if truthy_opt (text p) then strip (or_empty (text p)) else fallback
    | None => fallback
    end.
Proof.
  unfold parse_pmid. rewrite find_child.
  assert (match find [Child "PubmedData"; Child "ArticleIdList"] medline with
          | Some article_ids =>
              match find [ChildAttr "ArticleId" "IdType" "pubmed"] article_ids with
              | Some x => if truthy_opt (text x) then strip (or_empty (text x)) else ""
              | None => ""
              end
          | None => ""
          end
          = from_option (λ x, strip (default "" (text x))) ""
              (find [Child "PubmedData"; Child "ArticleIdList"] medline
               ≫= find [ChildAttr "ArticleId" "IdType" "pubmed"])) as ->; [|done].
  destruct (find [Child "PubmedData"; Child "ArticleIdList"] medline)
    as [ids|]; simpl; [|done].
  destruct (find [ChildAttr "ArticleId" "IdType" "pubmed"] ids) as [x|];
    simpl; [|done].
  by destruct (text x) as [[|a s]|].
Qed.

(** C6. The identifier of a citation element is the trimmed text of its
    first [PMID] sub-element when that element has non-empty text. Failing
    that (no such sub-element, or one without text) it is the trimmed text
    of the pubmed-kind entry of the [ArticleIdList] under [PubmedData] when
    there is one; and failing that too it is the empty string. A citation
    whose identifier resolves to the empty string gives no record. *)
Theorem parse_pmid_resolution (pp : option PubmedParser) (medline : Element) :
  let direct := List.find (has_tag "PMID") (children medline) in
  let entry :=
    find [Child "PubmedData"; Child "ArticleIdList"] medline
    ≫= find [ChildAttr "ArticleId" "IdType" "pubmed"] in
  (∀ p s, direct = Some p → text p = Some s → s ≠ "" →
     parse_pmid medline = strip s)
  ∧ ((direct = None ∨ ∃ p, direct = Some p ∧ (text p = None ∨ text p = Some "")) →
     (∀ x, entry = Some x → parse_pmid medline = strip (default "" (text x)))
     ∧ (entry = None → parse_pmid medline = ""))
  ∧ (parse_pmid medline = "" → parse_article_record pp medline = None).
Proof.
  intros direct entry. split_and!.
  - intros p s Hd Ht Hs. rewrite parse_pmid_cases. fold direct. rewrite Hd, Ht.
    simpl. apply truthy_true in Hs. by rewrite Hs.
  - intros Hd.
    assert (parse_pmid medline
            = from_option (λ x, strip (default "" (text x))) "" entry) as ->.
    { rewrite parse_pmid_cases. fold direct. fold entry.
      destruct Hd as [->|(p & -> & [Ht|Ht])]; [done| |]; by rewrite Ht. }
    split; [by intros x ->|by intros ->].
  - apply parse_article_record_None.
Qed.

Lemma parse_pmid_resolution_witness :
  parse_pmid Samples.padded_citation = "12".
Proof.
  exact (proj1 (parse_pmid_resolution None Samples.padded_citation)
           (Samples.leaf "PMID" " 12 ") " 12 " eq_refl eq_refl
           ltac:(discriminate)).
Defined.

(** ** Keywords *)

Section Keywords.

Variable pp : option PubmedParser.

Lemma parse_keywords_fails (medline : Element) :
  enriched_keywords_fail pp medline →
  parse_keywords pp medline = keywords_fallback medline.
Proof.
  unfold parse_keywords. intros [->|(lib & -> & ->)]; done.
Qed.

Lemma keyword_entries (l : list Element) :
  flat_map keyword_entry l = List.filter truthy (map trimmed_text l).
Proof.
  induction l as [|kw l IH]; simpl; [done|].
  unfold keyword_entry at 1. fold (trimmed_text kw).
  destruct (truthy (trimmed_text kw)); simpl; by rewrite IH.
Qed.

(** On an element without sub-elements, flattening by [itertext] gives
    the trimmed text. *)
Lemma stringify_fallback_leaf (e : Element) :
  children e = [] → stringify_fallback e = trimmed_text e.
Proof.
  destruct e as [tg attrs tx cs tl]. simpl. intros ->.
  unfold stringify_fallback, trimmed_text. simpl.
  destruct tx as [s|]; simpl; [|done].
  destruct (truthy s) eqn:Hs; simpl.
  - destruct (truthy (strip s)) eqn:Hs'; simpl.
    + apply strip_idemp.
    + apply truthy_false in Hs'. by rewrite Hs'.
  - done.
Qed.

End Keywords.

(** C7, as amended. When the enriched keyword extraction is unavailable or
    raises, [parse_keywords] yields, for the [Keyword] sub-elements of the
    [KeywordList] descendants (list by list, in order), the trimmed text
    that precedes the first sub-element of each, without the empty ones.
    For keywords without sub-elements this is their flattened text. *)
Theorem parse_keywords_fallback (pp : option PubmedParser) (medline : Element) :
  enriched_keywords_fail pp medline →
  parse_keywords pp medline
  = List.filter truthy (map trimmed_text (keyword_elements medline))
  ∧ (Forall (λ kw, children kw = []) (keyword_elements medline) →
     parse_keywords pp medline
     = List.filter truthy (map stringify_fallback (keyword_elements medline))).
Proof.
  intros Hfail. rewrite parse_keywords_fails by done.
  unfold keywords_fallback. rewrite findall_keywords, keyword_entries.
  split; [done|]. intros Hleaf. f_equal.
  apply Forall_fmap_ext_1. eapply Forall_impl; [exact Hleaf|].
  intros kw Hkw. simpl. symmetry. by apply stringify_fallback_leaf.
Qed.

Lemma parse_keywords_fallback_witness :
  parse_keywords None Samples.keyword_with_markup = ["H"].
Proof.
  exact (proj1 (parse_keywords_fallback None Samples.keyword_with_markup
                  (or_introl eq_refl))).
Defined.

(** C7 as worded fails: for [<Keyword>H<sub>2</sub>O</Keyword>] the
    fallback yields "H", and the flattened text is "H 2 O". *)
Lemma keywords_as_worded_fails :
  ¬ keyword_fallback_claim None Samples.keyword_with_markup.
Proof.
  intros H. specialize (H (or_introl eq_refl)). vm_compute in H. discriminate.
Qed.

Example keyword_with_markup_values :
  parse_keywords None Samples.keyword_with_markup = ["H"]
  ∧ keywords_as_worded None Samples.keyword_with_markup = ["H 2 O"].
Proof. split; vm_compute; exact eq_refl. Qed.

(** ** Abstracts *)

(** C5, as amended. Without an [Article] the abstract is empty. Otherwise:
    with no [AbstractText] segment it is the flattened text of the
    [Abstract] element (empty when there is none); with one segment it is
    that segment's flattened text; with two or more it is the newline-join
    of, per segment, its label (the [Label] attribute, else [NlmCategory];
    left out when empty or "UNASSIGNED") and its flattened text, where empty
    entries are left out before joining and the joined text is trimmed. *)
Theorem abstract_resolution (pp : option PubmedParser) (medline : Element) :
  (find [Child "Article"] medline = None →
   (parse_title_abstract pp medline).2 = "")
  ∧ ∀ article, find [Child "Article"] medline = Some article →
      let segs := findall [Child "Abstract"; Child "AbstractText"] article in
      (segs = [] →
       (parse_title_abstract pp medline).2
       = _stringify pp (find [Child "Abstract"] article))
      ∧ (∀ a, segs = [a] →
         (parse_title_abstract pp medline).2 = _stringify pp (Some a))
      ∧ (2 ≤ length segs →
         (parse_title_abstract pp medline).2
         = strip (join nl
             (List.filter truthy
                (flat_map
                   (λ a, (if truthy (segment_label a)
                             && negb (String.eqb (segment_label a) "UNASSIGNED")
                          then [segment_label a] else [])
                         ++ [_stringify pp (Some a)])
                   segs)))).
Proof.
  unfold parse_title_abstract. split.
  - by intros ->.
  - intros article ->. simpl. split_and!.
    + by intros ->.
    + by intros a ->.
    + destruct (findall [Child "Abstract"; Child "AbstractText"] article)
        as [|a [|b l]]; simpl; intros Hlen; [lia|lia|done].
Qed.

Lemma abstract_resolution_witness :
  (parse_title_abstract None Samples.background_results).2
  = "Background" +:+ nl +:+ "B." +:+ nl +:+ "Results" +:+ nl +:+ "R.".
Proof.
  destruct (proj2 (abstract_resolution None Samples.background_results)
              (Samples.node "Article"
                 [Samples.node "Abstract"
                    [Samples.labelled "Background" "B.";
                     Samples.labelled "Results" "R."]])
              eq_refl) as (_ & _ & H).
  rewrite H; [vm_compute; exact eq_refl | vm_compute; exact (le_n 2)].
Defined.

(** The scenarios of the specification: labels "Background" and "Results"
    over the texts "B." and "R."; and a label "UNASSIGNED", which is left
    out. *)
Example abstract_background_results :
  (parse_title_abstract None Samples.background_results).2
  = "Background" +:+ nl +:+ "B." +:+ nl +:+ "Results" +:+ nl +:+ "R."
  ∧ (parse_title_abstract None Samples.unassigned_results).2
    = "U." +:+ nl +:+ "Results" +:+ nl +:+ "R.".
Proof. split; vm_compute; exact eq_refl. Qed.

Lemma stringify_stripped (pp : option PubmedParser) (node : option Element) :
  strip (_stringify pp node) = _stringify pp node.
Proof.
  unfold _stringify. destruct node as [node|]; [|done].
  unfold stringify_fallback.
  destruct pp as [lib|]; [|apply strip_idemp].
  destruct (stringify_children lib node); apply strip_idemp.
Qed.

(** Where no label and no flattened text of a structured abstract is empty
    and the first entry does not start with whitespace, the abstract is the
    one worded in C5. *)
Lemma abstract_as_worded_agrees (pp : option PubmedParser)
    (medline article : Element) :
  find [Child "Article"] medline = Some article →
  let parts :=
    flat_map (segment_parts pp)
      (findall [Child "Abstract"; Child "AbstractText"] article) in
  Forall (λ p, truthy p = true) parts →
  (∀ p, head parts = Some p → lstrip p = p) →
  (parse_title_abstract pp medline).2 = abstract_as_worded pp article.
Proof.
  intros Ha parts Hne Hfirst. unfold parse_title_abstract, abstract_as_worded.
  rewrite Ha. cbn [snd]. subst parts.
  destruct (findall [Child "Abstract"; Child "AbstractText"] article)
    as [|a [|b segs]]; [done|done|].
  cbv beta iota.
  set (parts := flat_map (segment_parts pp) (a :: b :: segs)) in *.
  assert (List.filter truthy parts = parts) as ->.
  { clear Hfirst. induction Hne as [|p l Hp _ IH]; simpl; [done|].
    by rewrite Hp, IH. }
  assert (∃ front last, parts = front ++ [_stringify pp (Some last)])
    as (front & last & Hparts).
  { unfold parts.
    destruct (exists_last (l := a :: b :: segs) ltac:(done)) as (l & z & ->).
    rewrite flat_map_app. cbn [flat_map]. rewrite app_nil_r.
    unfold segment_parts at 2.
    exists (flat_map (segment_parts pp) l
            ++ (if truthy (segment_label z)
                   && negb (String.eqb (segment_label z) "UNASSIGNED")
                then [segment_label z] else [])), z.
    by rewrite app_assoc. }
  clearbody parts.
  assert (truthy (_stringify pp (Some last)) = true) as Hlast.
  { pose proof Hne as Hne'. rewrite Hparts in Hne'.
    apply Forall_app in Hne' as [_ Hne']. exact (List.Forall_inv Hne'). }
  assert (rstrip (_stringify pp (Some last)) = _stringify pp (Some last)) as Hr.
  { rewrite <- (stringify_stripped pp (Some last)) at 1.
    unfold strip. rewrite rstrip_idemp. apply stringify_stripped. }
  unfold strip.
  assert (lstrip (join nl parts) = join nl parts) as ->.
  { destruct parts as [|p l]; [by destruct front|].
    apply join_lstrip.
    - by apply Forall_cons in Hne as [? _].
    - by apply Hfirst. }
  rewrite Hparts. by apply join_rstrip.
Qed.

(** C5 as worded fails: a first segment with a label and no text gives
    "Background", "Results", "R." on three lines, without the empty line
    that joining label and text of every segment would put after
    "Background". *)
Lemma abstract_as_worded_fails :
  ¬ abstract_claim None Samples.empty_background.
Proof.
  intros H. specialize (H _ eq_refl). vm_compute in H. discriminate.
Qed.

(** * Further properties of the program *)

(** ** Reading a document, element by element *)

Section QuietSubtrees.

Variable pp : option PubmedParser.

Lemma reads_app_nil {A} (opts : options) (body : Element → list A * Element)
    (t t' t'' : tree) (a b : list token) (ys : list A) :
  reads opts body t a [] t' → reads opts body t' b ys t'' →
  reads opts body t (a ++ b) ys t''.
Proof. intros Ha Hb. exact (reads_app opts body _ _ _ _ _ _ _ Ha Hb). Qed.

Lemma reads_text_any {A} (opts : options) (body : Element → list A * Element)
    (q : Element) (st : list Element) (r : option Element) (o : option string) :
  reads opts body {| open_elems := q :: st; closed_root := r |}
    (map TText (opt_list o)) []
    {| open_elems := from_option (λ s, add_text s q) q o :: st;
       closed_root := r |}.
Proof.
  destruct o as [s|]; simpl; [|constructor].
  by apply reads_one.
Qed.

Lemma map_last_app {X} (f : X → X) (l : list X) (x : X) :
  map_last f (l ++ [x]) = l ++ [f x].
Proof.
  induction l as [|y l IH]; simpl; [done|].
  rewrite IH. by destruct (l ++ [x]) eqn:E; [destruct l|].
Qed.

(** Character data that follows a closed sub-element becomes its tail. *)
Lemma add_text_add_child (s : string) (c p : Element) :
  add_text s (add_child c p)
  = Elem (tag p) (attrib p) (text p)
      (children p
       ++ [Elem (tag c) (attrib c) (text c) (children c) (append_text (tail c) s)])
      (tail p).
Proof.
  unfold add_text, add_child. cbn [children tag attrib text tail].
  destruct (children p ++ [c]) as [|x l] eqn:E; [by destruct (children p)|].
  rewrite <- E. by rewrite map_last_app.
Qed.

Lemma quiet_unfold (e : Element) :
  quiet e
  = negb (record_kind e) && (len e <=? 1000) && forallb quiet (children e).
Proof. by destruct e. Qed.

Lemma record_kind_tag (e e' : Element) :
  tag e = tag e' → record_kind e = record_kind e'.
Proof. unfold record_kind, has_tag. by intros ->. Qed.

(** The loop body on an element of no record kind. *)
Lemma loop_body_plain (e : Element) :
  record_kind e = false →
  loop_body pp e = ([], if 1000 <? len e then clear e else e).
Proof.
  unfold record_kind, has_tag, loop_body.
  intros [-> ->]%orb_false_iff. done.
Qed.

Lemma loop_body_quiet (e : Element) :
  record_kind e = false → (len e <=? 1000) = true → loop_body pp e = ([], e).
Proof.
  intros Hk Hl. rewrite loop_body_plain by done.
  apply Nat.leb_le in Hl. apply Nat.ltb_ge in Hl. by rewrite Hl.
Qed.

(** A quiet subtree, with the text after it, is read without a record and
    ends up unchanged as the last sub-element of the element around it. *)
Lemma reads_quiet (e : Element) :
  quiet e = true →
  ∀ (p : Element) (st : list Element) (r : option Element),
    reads iterparse_defaults (loop_body pp)
      {| open_elems := p :: st; closed_root := r |}
      (to_tokens e ++ map TText (opt_list (tail e))) []
      {| open_elems := add_child e p :: st; closed_root := r |}.
Proof.
  induction e as [tg attrs tx cs tl IH] using Element_ind_children.
  rewrite quiet_unfold. cbn [children].
  intros [[Hk Hl]%andb_true_iff Hcs]%andb_true_iff p st r.
  apply negb_true_iff in Hk.
  rewrite to_tokens_unfold. cbn [tail].
  assert (∀ q,
            reads iterparse_defaults (loop_body pp)
              {| open_elems := q :: p :: st; closed_root := r |}
              (flat_map (λ c, to_tokens c ++ map TText (opt_list (tail c))) cs) []
              {| open_elems :=
                   Elem (tag q) (attrib q) (text q) (children q ++ cs) (tail q)
                   :: p :: st;
                 closed_root := r |}) as Hchildren.
  { clear Hl Hk. induction IH as [|c cs Hc _ IHcs]; intros q; simpl.
    - rewrite app_nil_r. destruct q. constructor.
    - apply andb_true_iff in Hcs as [Hqc Hcs].
      eapply reads_app_nil; [exact (Hc Hqc q (p :: st) r)|].
      specialize (IHcs Hcs (add_child c q)). simpl in IHcs.
      by rewrite <- app_assoc in IHcs. }
  change (TStart tg attrs
          :: map TText (opt_list tx)
             ++ flat_map (λ c, to_tokens c ++ map TText (opt_list (tail c))) cs
             ++ [TEnd])
    with ([TStart tg attrs]
          ++ map TText (opt_list tx)
             ++ flat_map (λ c, to_tokens c ++ map TText (opt_list (tail c))) cs
             ++ [TEnd]).
  rewrite <- !app_assoc.
  eapply reads_app_nil; [by apply reads_one|].
  eapply reads_app_nil; [apply reads_text_any|].
  assert (from_option (λ s, add_text s (Elem tg attrs None [] None))
            (Elem tg attrs None [] None) tx
          = Elem tg attrs tx [] None) as -> by (by destruct tx).
  eapply reads_app_nil; [apply Hchildren|]. cbn [tag attrib text children tail].
  change ([] ++ cs) with cs.
  eapply reads_app_nil.
  - apply reads_one. unfold feed. cbn [open_elems].
    rewrite loop_body_quiet by done. reflexivity.
  - cbn [attach closed_root].
    pose proof (reads_text_any iterparse_defaults (loop_body pp)
                  (add_child (Elem tg attrs tx cs None) p) st r tl) as Ht.
    destruct tl as [s|]; simpl in Ht; [|exact Ht].
    rewrite add_text_add_child in Ht. exact Ht.
Qed.

End QuietSubtrees.

Section RegularDocuments.

Variable pp : option PubmedParser.

Lemma reads_quiet_children (cs : list Element) :
  forallb quiet cs = true →
  ∀ (q : Element) (st : list Element) (r : option Element),
    reads iterparse_defaults (loop_body pp)
      {| open_elems := q :: st; closed_root := r |}
      (flat_map (λ c, to_tokens c ++ map TText (opt_list (tail c))) cs) []
      {| open_elems :=
           Elem (tag q) (attrib q) (text q) (children q ++ cs) (tail q) :: st;
         closed_root := r |}.
Proof.
  induction cs as [|c cs IH]; intros Hcs q st r; simpl.
  - rewrite app_nil_r. destruct q. constructor.
  - apply andb_true_iff in Hcs as [Hc Hcs].
    eapply reads_app_nil; [exact (reads_quiet pp c Hc q st r)|].
    specialize (IH Hcs (add_child c q) st r). simpl in IH.
    by rewrite <- app_assoc in IH.
Qed.

Lemma tag_add_text (s : string) (q : Element) : tag (add_text s q) = tag q.
Proof. unfold add_text. by destruct (children q). Qed.

Lemma regular_unfold (e : Element) :
  regular e
  = if record_kind e then forallb quiet (children e)
    else forallb regular (children e).
Proof. by destruct e. Qed.

Lemma document_records_unfold (e : Element) :
  document_records pp e
  = if record_kind e then (loop_body pp (untail e)).1
    else flat_map (document_records pp) (children e).
Proof. by destruct e. Qed.

Lemma feed_TStart {A} (opts : options) (body : Element → list A * Element)
    (st : list Element) (r : option Element) (tg : string)
    (attrs : gmap string string) :
  (st = [] → r = None) →
  feed opts body {| open_elems := st; closed_root := r |} (TStart tg attrs)
  = Next {| open_elems := Elem tg attrs None [] None :: st; closed_root := r |} [].
Proof.
  intros Hr. unfold feed. simpl. destruct st as [|p st]; [|done].
  by rewrite (Hr eq_refl).
Qed.

(** A regular element is read without exception and yields its records in
    document order. *)
Lemma reads_regular (e : Element) :
  regular e = true →
  ∀ (st : list Element) (r : option Element),
    (st = [] → r = None) →
    ∃ e',
      reads iterparse_defaults (loop_body pp)
        {| open_elems := st; closed_root := r |} (to_tokens e)
        (document_records pp e)
        (attach e' st {| open_elems := st; closed_root := r |}).
Proof.
  induction e as [tg attrs tx cs tl IH] using Element_ind_children.
  rewrite regular_unfold, document_records_unfold. cbn [children].
  intros Hreg st r Hr. rewrite to_tokens_unfold.
  change (TStart tg attrs
          :: map TText (opt_list tx)
             ++ flat_map (λ c, to_tokens c ++ map TText (opt_list (tail c))) cs
             ++ [TEnd])
    with ([TStart tg attrs]
          ++ map TText (opt_list tx)
             ++ flat_map (λ c, to_tokens c ++ map TText (opt_list (tail c))) cs
             ++ [TEnd]).
  pose proof (reads_one _ _ _ _ _ _
                (feed_TStart iterparse_defaults (loop_body pp) st r tg attrs Hr))
    as Hstart.
  pose proof (reads_text_any iterparse_defaults (loop_body pp)
                (Elem tg attrs None [] None) st r tx) as Htext.
  assert (from_option (λ s, add_text s (Elem tg attrs None [] None))
            (Elem tg attrs None [] None) tx
          = Elem tg attrs tx [] None) as Heq by (by destruct tx).
  rewrite Heq in Htext. clear Heq.
  destruct (record_kind (Elem tg attrs tx cs tl)) eqn:Hk.
  - (* an element of a record kind: its content is read as it is *)
    pose proof (reads_quiet_children cs Hreg (Elem tg attrs tx [] None) st r)
      as Hcs.
    cbn [tag attrib text children tail] in Hcs. change ([] ++ cs) with cs in Hcs.
    exists (loop_body pp (Elem tg attrs tx cs None)).2.
    eapply reads_app_nil; [exact Hstart|].
    eapply reads_app_nil; [exact Htext|].
    eapply reads_app_nil; [exact Hcs|].
    apply reads_one. unfold feed, untail. cbn [open_elems tag attrib text children].
    by destruct (loop_body pp (Elem tg attrs tx cs None)).
  - (* any other element: the records are those of its sub-elements *)
    assert (∀ q, ∃ q',
              reads iterparse_defaults (loop_body pp)
                {| open_elems := q :: st; closed_root := r |}
                (flat_map (λ c, to_tokens c ++ map TText (opt_list (tail c))) cs)
                (flat_map (document_records pp) cs)
                {| open_elems := q' :: st; closed_root := r |}
              ∧ tag q' = tag q) as Hcs.
    { clear Hstart Htext Hk.
      induction IH as [|c cs Hc _ IHcs]; intros q; simpl.
      - exists q. split; [constructor|done].
      - apply andb_true_iff in Hreg as [Hrc Hrcs].
        destruct (Hc Hrc (q :: st) r ltac:(done)) as (c' & Hreads).
        cbn [attach closed_root] in Hreads.
        pose proof (reads_text_any iterparse_defaults (loop_body pp)
                      (add_child c' q) st r (tail c)) as Ht.
        destruct (IHcs Hrcs
                    (from_option (λ s, add_text s (add_child c' q))
                       (add_child c' q) (tail c))) as (q' & Hrest & Htag).
        exists q'. split.
        + rewrite <- app_assoc.
          eapply reads_app; [exact Hreads|].
          eapply reads_app_nil; [exact Ht|exact Hrest].
        + rewrite Htag. destruct (tail c); simpl; [by rewrite tag_add_text|done]. }
    destruct (Hcs (Elem tg attrs tx [] None)) as (q' & Hreads & Htag).
    exists (loop_body pp q').2.
    eapply reads_app_nil; [exact Hstart|].
    eapply reads_app_nil; [exact Htext|].
    rewrite <- (app_nil_r (flat_map (document_records pp) cs)).
    eapply reads_app; [exact Hreads|].
    apply reads_one. unfold feed. cbn [open_elems].
    assert (record_kind q' = false) as Hk'.
    { rewrite <- Hk. by apply record_kind_tag. }
    rewrite (loop_body_plain pp q' Hk'). reflexivity.
Qed.

End RegularDocuments.

(** X1. On a well-formed document in which citation and deletion-list
    elements are not nested and hold no element with more than 1000
    sub-elements, the generator ends normally and yields exactly the
    records of these elements, in document order. *)
Theorem iter_records_document_order (pp : option PubmedParser) (doc : Element) :
  regular doc = true →
  iter_records_from_xml_gz pp (to_tokens doc) = (document_records pp doc, Done).
Proof.
  intros Hreg.
  destruct (reads_regular pp doc Hreg [] None ltac:(done)) as (doc' & Hreads).
  pose proof (reads_iterparse _ _ _ _ _ [] _ Hreads) as H.
  rewrite app_nil_r in H. unfold iter_records_from_xml_gz, empty_tree.
  rewrite H. simpl. by rewrite app_nil_r.
Qed.

Lemma iter_records_document_order_witness :
  iter_records_from_xml_gz None (to_tokens MoreSamples.update_file)
  = ([Samples.bare_record "1"; Samples.bare_record "2"; tombstone "9"], Done).
Proof.
  rewrite (iter_records_document_order None MoreSamples.update_file eq_refl).
  vm_compute. exact eq_refl.
Defined.

(** ** What every yielded record satisfies *)

Section YieldedRecords.

Variable pp : option PubmedParser.

Lemma parse_pmid_stripped (medline : Element) :
  strip (parse_pmid medline) = parse_pmid medline.
Proof.
  rewrite parse_pmid_cases. cbv zeta.
  assert (∀ o : option Element,
            strip (from_option (λ x, strip (default "" (text x))) "" o)
            = from_option (λ x, strip (default "" (text x))) "" o) as Hf.
  { intros [x|]; simpl; [apply strip_idemp|done]. }
  destruct (List.find (has_tag "PMID") (children medline)) as [p|]; [|apply Hf].
  destruct (truthy_opt (text p)); [apply strip_idemp|apply Hf].
Qed.

Lemma loop_body_docno (elem : Element) :
  Forall (λ r, docno r = pmid r ∧ strip (pmid r) = pmid r) (loop_body pp elem).1.
Proof.
  unfold loop_body.
  destruct (String.eqb (tag elem) "MedlineCitation"); simpl.
  { unfold parse_article_record.
    destruct (negb (truthy (parse_pmid elem))); [constructor|].
    apply Forall_singleton. simpl. split; [done|apply parse_pmid_stripped]. }
  destruct (String.eqb (tag elem) "DeleteCitation"); simpl; [|constructor].
  rewrite tombstone_entries. apply Forall_map, List.Forall_forall.
  intros c _. simpl. split; [done|apply strip_idemp].
Qed.

Lemma loop_body_origin (elem : Element) (r : PubmedRecord) :
  r ∈ (loop_body pp elem).1 →
  (is_deleted r = false ∧ from_citation pp elem r)
  ∨ (is_deleted r = true ∧ bare_tombstone r ∧ from_deletion elem r).
Proof.
  unfold loop_body, from_citation, from_deletion.
  destruct (String.eqb_spec (tag elem) "MedlineCitation") as [Hc|_]; simpl.
  { destruct (parse_article_record pp elem) as [rec|] eqn:E;
      [|by intros ?%elem_of_nil].
    intros ->%list_elem_of_singleton. left. split; [|done].
    unfold parse_article_record in E.
    destruct (negb (truthy (parse_pmid elem))); [done|]. by injection E as <-. }
  destruct (String.eqb_spec (tag elem) "DeleteCitation") as [Hd|_]; simpl;
    [|by intros ?%elem_of_nil].
  rewrite tombstone_entries. intros (c & -> & Hc)%list_elem_of_fmap.
  apply list_elem_of_In, List.filter_In in Hc as [Hc Hb].
  apply negb_true_iff in Hb. apply list_elem_of_In in Hc.
  right. split; [done|]. split; [by repeat split|]. split; [done|].
  by exists c.
Qed.

End YieldedRecords.

(** X3. In every yielded record, full record or tombstone, [docno] repeats
    [pmid], and [pmid] carries no leading or trailing whitespace. *)
Theorem yielded_docno_is_trimmed_pmid (pp : option PubmedParser) (fh : list token) :
  Forall (λ r, docno r = pmid r ∧ strip (pmid r) = pmid r)
    (iter_records_from_xml_gz pp fh).1.
Proof. apply iterparse_Forall, loop_body_docno. Qed.

(** X4. The flag [is_deleted] tells the two kinds of record apart: a
    yielded record with the flag unset is the record of a citation element
    the loop has met, and one with the flag set comes from a non-blank
    [PMID] sub-element of a deletion list the loop has met and has every
    other field empty. *)
Theorem yielded_record_origin (pp : option PubmedParser) (fh : list token)
    (r : PubmedRecord) :
  r ∈ (iter_records_from_xml_gz pp fh).1 →
  ∃ e, e ∈ end_events pp fh
       ∧ ((is_deleted r = false ∧ from_citation pp e r)
          ∨ (is_deleted r = true ∧ bare_tombstone r ∧ from_deletion e r)).
Proof.
  rewrite iter_records_end_events.
  intros (e & He & Hr)%list_elem_of_In%List.in_flat_map.
  exists e. split; [by apply list_elem_of_In|].
  by apply loop_body_origin, list_elem_of_In.
Qed.

Lemma yielded_record_origin_witness :
  ∃ e, e ∈ end_events None (to_tokens MoreSamples.update_file)
       ∧ ((is_deleted (tombstone "9") = false ∧ from_citation None e (tombstone "9"))
          ∨ (is_deleted (tombstone "9") = true ∧ bare_tombstone (tombstone "9")
             ∧ from_deletion e (tombstone "9"))).
Proof.
  apply (yielded_record_origin None (to_tokens MoreSamples.update_file)).
  apply list_elem_of_In. vm_compute. do 2 right. left. exact eq_refl.
Defined.

(** ** Flattened text, headings and keywords *)

Section TextFields.

Variable pp : option PubmedParser.

Lemma parse_title_abstract_trimmed (medline : Element) :
  strip (parse_title_abstract pp medline).1 = (parse_title_abstract pp medline).1
  ∧ strip (parse_title_abstract pp medline).2 = (parse_title_abstract pp medline).2.
Proof.
  unfold parse_title_abstract.
  destruct (find [Child "Article"] medline) as [article|]; [|done].
  cbn [fst snd]. split; [apply stringify_stripped|].
  destruct (findall [Child "Abstract"; Child "AbstractText"] article)
    as [|a [|b segs]]; [apply stringify_stripped..|apply strip_idemp].
Qed.

Lemma loop_body_trimmed (elem : Element) :
  Forall (λ r, strip (title r) = title r ∧ strip (abstract r) = abstract r)
    (loop_body pp elem).1.
Proof.
  unfold loop_body.
  destruct (String.eqb (tag elem) "MedlineCitation"); simpl.
  { unfold parse_article_record.
    destruct (negb (truthy (parse_pmid elem))); [constructor|].
    apply Forall_singleton. simpl. apply parse_title_abstract_trimmed. }
  destruct (String.eqb (tag elem) "DeleteCitation"); simpl; [|constructor].
  rewrite tombstone_entries. apply Forall_map, List.Forall_forall.
  by intros c _.
Qed.

Lemma nonblank_piece (t : string) :
  truthy t && truthy (strip t) = negb (all_space t).
Proof.
  destruct (all_space t) eqn:Hb; simpl.
  - apply strip_blank in Hb. rewrite Hb. apply andb_false_r.
  - assert (strip t ≠ "") as Hs by (rewrite strip_blank; congruence).
    apply truthy_true in Hs. rewrite Hs. by destruct t.
Qed.

(** Trimmed text that is not empty starts with a character other than
    whitespace. *)
Lemma strip_head (s x : string) (c : ascii) :
  strip s = String c x → isspace c = false.
Proof.
  intros Hs. pose proof (lstrip_rstrip_lstrip s) as Hl.
  fold (strip s) in Hl. rewrite Hs in Hl. simpl in Hl.
  destruct (isspace c); [|done].
  pose proof (length_lstrip x) as Hlen. rewrite Hl in Hlen. simpl in Hlen. lia.
Qed.

Lemma append_empty_r (s : string) : s +:+ "" = s.
Proof.
  induction s as [|c s IH]; [done|].
  change (String c (s +:+ "") = String c s). by rewrite IH.
Qed.

Lemma join_head (sep x : string) (l : list string) :
  ∃ y, join sep (x :: l) = x +:+ y.
Proof.
  destruct l as [|z l].
  - exists "". simpl. by rewrite append_empty_r.
  - by exists (sep +:+ join sep (z :: l)).
Qed.

Lemma stringify_fallback_empty (node : Element) :
  stringify_fallback node = ""
  ↔ Forall (λ t, all_space t = true) (itertext node).
Proof.
  unfold stringify_fallback.
  induction (itertext node) as [|t l IH]; [done|].
  cbn [List.filter]. rewrite nonblank_piece.
  destruct (all_space t) eqn:Hb; cbn [negb map].
  - rewrite IH. split; [by constructor|by intros [_ ?]%Forall_cons].
  - split; [|intros [? _]%Forall_cons; congruence].
    intros Hs. exfalso. apply strip_blank in Hs.
    destruct (join_head " " (strip t)
                (map strip (List.filter
                              (λ t, truthy t && truthy (strip t)) l))) as [y Hy].
    rewrite Hy in Hs.
    assert (strip t ≠ "") as Hne by (rewrite strip_blank; congruence).
    destruct (strip t) as [|c x] eqn:Ht; [done|].
    pose proof (strip_head _ _ _ Ht) as Hc.
    change (isspace c && all_space (x +:+ y) = true) in Hs.
    by rewrite Hc in Hs.
Qed.




End TextFields.

(** X5. The title and the abstract of every yielded record carry no
    leading or trailing whitespace, whatever the optional pubmed_parser
    module returns. *)
Theorem yielded_text_is_trimmed (pp : option PubmedParser) (fh : list token) :
  Forall (λ r, strip (title r) = title r ∧ strip (abstract r) = abstract r)
    (iter_records_from_xml_gz pp fh).1.
Proof. apply iterparse_Forall, loop_body_trimmed. Qed.

(** X6. When pubmed_parser is unavailable or its [stringify_children]
    raises, the flattened text of an element is empty exactly when every
    piece of text in it (its own text, and the text and tails of its
    descendants) is whitespace. *)
Theorem stringify_empty_iff_blank (pp : option PubmedParser) (node : Element) :
  pp = None ∨ (∃ lib, pp = Some lib ∧ stringify_children lib node = Raises) →
  _stringify pp (Some node) = ""
  ↔ Forall (λ t, all_space t = true) (itertext node).
Proof.
  intros Hpp.
  assert (_stringify pp (Some node) = stringify_fallback node) as ->.
  { unfold _stringify. by destruct Hpp as [->|(lib & -> & ->)]. }
  apply stringify_fallback_empty.
Qed.

Lemma stringify_empty_iff_blank_witness :
  _stringify None (Some (Samples.leaf "ArticleTitle" "  ")) = "".
Proof.
  apply (stringify_empty_iff_blank None (Samples.leaf "ArticleTitle" "  ")
           (or_introl eq_refl)).
  vm_compute. by repeat constructor.
Defined.



(** X8. When the enriched keyword extraction is unavailable or raises, no
    keyword that [parse_keywords] returns is empty or carries leading or
    trailing whitespace. *)
Theorem fallback_keywords_are_trimmed (pp : option PubmedParser) (medline : Element) :
  enriched_keywords_fail pp medline →
  Forall (λ k, k ≠ "" ∧ strip k = k) (parse_keywords pp medline).
Proof.
  intros Hfail. rewrite parse_keywords_fails by done.
  unfold keywords_fallback. rewrite keyword_entries.
  apply List.Forall_forall. intros k [Hin Hk]%List.filter_In.
  apply List.in_map_iff in Hin as (kw & <- & _).
  split; [by apply truthy_true|apply strip_idemp].
Qed.

Lemma fallback_keywords_are_trimmed_witness :
  Forall (λ k, k ≠ "" ∧ strip k = k)
    (parse_keywords None Samples.keyword_with_markup).
Proof.
  exact (fallback_keywords_are_trimmed None Samples.keyword_with_markup
           (or_introl eq_refl)).
Defined.

(** ** The lines of the output file *)

Section JsonLines.

Lemma no_control_app (a b : string) :
  no_control (a +:+ b) = no_control a && no_control b.
Proof.
  induction a as [|c a IH]; [done|].
  change (no_control (String c (a +:+ b))
          = no_control (String c a) && no_control b).
  simpl. by rewrite IH, andb_assoc.
Qed.

Lemma escape_char_no_control (c : ascii) : no_control (escape_char c) = true.
Proof.
  destruct c as [b0 b1 b2 b3 b4 b5 b6 b7].
  destruct b0, b1, b2, b3, b4, b5, b6, b7; vm_compute; exact eq_refl.
Qed.

Lemma escape_no_control (s : string) : no_control (escape s) = true.
Proof.
  induction s as [|c s IH]; [done|].
  change (no_control (escape_char c +:+ escape s) = true).
  by rewrite no_control_app, escape_char_no_control, IH.
Qed.

Lemma json_str_no_control (s : string) : no_control (json_str s) = true.
Proof.
  unfold json_str. by rewrite !no_control_app, escape_no_control.
Qed.

Lemma join_no_control (sep : string) (l : list string) :
  no_control sep = true → Forall (λ x, no_control x = true) l →
  no_control (join sep l) = true.
Proof.
  intros Hsep. induction 1 as [|x l Hx Hl IH]; [done|].
  destruct l as [|y l]; [done|].
  change (no_control (x +:+ sep +:+ join sep (y :: l)) = true).
  by rewrite !no_control_app, Hx, Hsep, IH.
Qed.

Lemma json_dumps_no_control (r : PubmedRecord) : no_control (json_dumps r) = true.
Proof.
  unfold json_dumps. rewrite !no_control_app.
  rewrite join_no_control; [done|done|].
  repeat constructor; rewrite !no_control_app, !json_str_no_control; try done.
  - unfold json_list. rewrite !no_control_app.
    rewrite join_no_control; [done|done|].
    apply Forall_map, List.Forall_forall. intros k _. apply json_str_no_control.
  - by destruct (is_deleted r).
Qed.

Lemma count_char_app (c : ascii) (a b : string) :
  count_char c (a +:+ b) = count_char c a + count_char c b.
Proof.
  induction a as [|x a IH]; [done|].
  change (count_char c (String x (a +:+ b))
          = count_char c (String x a) + count_char c b).
  simpl. rewrite IH. lia.
Qed.

Lemma count_control_char (c : ascii) (s : string) :
  nat_of_ascii c < 32 → no_control s = true → count_char c s = 0.
Proof.
  intros Hc. induction s as [|a s IH]; [done|].
  cbn [count_char no_control].
  intros [Ha Hs]%andb_true_iff. rewrite IH by done.
  destruct (Ascii.eqb_spec a c) as [->|_]; [|done].
  apply Nat.leb_le in Ha. lia.
Qed.

End JsonLines.

(** X9. A serialized record holds no control character, so no line break,
    whatever its fields hold (abstracts do hold line feeds); and the text
    written for a list of records holds exactly one line feed per
    record. *)
Theorem one_line_per_record (recs : list PubmedRecord) :
  Forall (λ r, no_control (json_dumps r) = true) recs
  ∧ count_char (ascii_of_nat 10) (written recs) = length recs.
Proof.
  split.
  { apply List.Forall_forall. intros r _. apply json_dumps_no_control. }
  unfold written.
  assert (∀ content,
            count_char (ascii_of_nat 10)
              (fold_left (λ content rec, content +:+ (json_dumps rec +:+ nl))
                 recs content)
            = count_char (ascii_of_nat 10) content + length recs) as H.
  { induction recs as [|r recs IH]; intros content; simpl; [lia|].
    rewrite IH, !count_char_app.
    rewrite (count_control_char _ (json_dumps r));
      [|vm_compute; lia|apply json_dumps_no_control].
    change (count_char (ascii_of_nat 10) nl) with 1. lia. }
  by rewrite H.
Qed.

(** ** Paths *)

Section PathNames.

Lemma substring_app_l (a b : string) :
  substring 0 (String.length a) (a +:+ b) = a.
Proof.
  induction a as [|c a IH]; [by destruct b|].
  change (String c (substring 0 (String.length a) (a +:+ b)) = String c a).
  by rewrite IH.
Qed.

Lemma substring_all (b : string) : substring 0 (String.length b) b = b.
Proof. induction b as [|c b IH]; simpl; [done|]. by rewrite IH. Qed.

Lemma substring_app_r (a b : string) :
  substring (String.length a) (String.length b) (a +:+ b) = b.
Proof.
  induction a as [|c a IH]; [apply substring_all|].
  change (substring (String.length a) (String.length b) (a +:+ b) = b).
  exact IH.
Qed.

Lemma path_suffix_jsonl (stem : string) :
  stem ≠ "" → path_suffix (stem +:+ ".jsonl") = ".jsonl".
Proof.
  intros Hstem. unfold path_suffix.
  rewrite (rfind_app "." stem ".jsonl" 0 eq_refl), Nat.add_0_r.
  rewrite length_app_str.
  assert (0 < String.length stem) as Hlen by (destruct stem; simpl; [done|lia]).
  destruct (Nat.ltb_spec 0 (String.length stem)); [|lia].
  destruct (Nat.ltb_spec (String.length stem)
              (String.length stem + String.length ".jsonl" - 1));
    simpl in *; [|lia].
  replace (String.length stem + 6 - String.length stem) with
    (String.length ".jsonl") by (simpl; lia).
  apply substring_app_r.
Qed.

Lemma replace_from_no_dot (stem rest : string) :
  count_char "." stem = 0 →
  replace_from ".xml.gz" ".jsonl" 0 (stem +:+ rest)
  = stem +:+ replace_from ".xml.gz" ".jsonl" 0 rest.
Proof.
  induction stem as [|c stem IH]; [done|].
  change (count_char "." (String c stem))
    with ((if Ascii.eqb c "." then 1 else 0) + count_char "." stem).
  destruct (Ascii.eqb_spec c ".") as [->|Hc]; [simpl; lia|].
  simpl. intros Hn.
  change (replace_from ".xml.gz" ".jsonl" 0 (String c (stem +:+ rest))
          = String c (stem +:+ replace_from ".xml.gz" ".jsonl" 0 rest)).
  cbn [replace_from String.prefix].
  destruct (Ascii.ascii_dec "." c) as [<-|_]; [done|].
  by rewrite IH.
Qed.

End PathNames.

(** X10. For a final path [dir/stem.jsonl] with a non-empty stem the
    temporary path of [xml_gz_to_jsonl] is [dir/stem.jsonl.partial]: in the
    same directory, with ".partial" added to the name. *)
Theorem temporary_path_of_jsonl (dir stem : string) :
  stem ≠ "" →
  with_suffix (dir, stem +:+ ".jsonl") ".jsonl.partial"
  = Some (dir, stem +:+ ".jsonl.partial").
Proof.
  intros Hstem. unfold with_suffix. cbn [fst snd].
  assert (truthy (stem +:+ ".jsonl") = true) as -> by (by apply truthy_app).
  rewrite path_suffix_jsonl by done. cbn [negb truthy].
  rewrite length_app_str.
  replace (String.length stem + String.length ".jsonl" - String.length ".jsonl")
    with (String.length stem) by lia.
  by rewrite substring_app_l.
Qed.

Lemma temporary_path_of_jsonl_witness :
  with_suffix Samples.final_path ".jsonl.partial"
  = Some ("out", "pubmed25n0001.jsonl.partial").
Proof.
  exact (temporary_path_of_jsonl "out" "pubmed25n0001" ltac:(discriminate)).
Defined.

(** X11. An input named [stem.xml.gz], where the stem holds no dot, gets
    the output path [out_dir/stem.jsonl]; a name without any dot is taken
    over unchanged. *)
Theorem jsonl_path_of_shard (args : Args) (dir stem : string) :
  count_char "." stem = 0 →
  jsonl_path_of args (dir, stem +:+ ".xml.gz") = (output_dir args, stem +:+ ".jsonl")
  ∧ jsonl_path_of args (dir, stem) = (output_dir args, stem).
Proof.
  intros Hstem. unfold jsonl_path_of, str_replace. cbn [snd]. split; f_equal.
  - by rewrite replace_from_no_dot.
  - rewrite <- (append_empty_r stem) at 1.
    rewrite replace_from_no_dot by done. by rewrite append_empty_r.
Qed.

Lemma jsonl_path_of_shard_witness :
  jsonl_path_of (MoreSamples.run_args false) ("in", "pubmed25n0001.xml.gz")
  = ("out", "pubmed25n0001.jsonl").
Proof.
  exact (proj1 (jsonl_path_of_shard (MoreSamples.run_args false) "in"
                  "pubmed25n0001" eq_refl)).
Defined.

(** ** Running a shard again *)

Section Promotion.

Variable pp : option PubmedParser.

(** The file system after the lines of [recs] have gone to [tmp] and
    [tmp] has been moved to [final]. *)
Lemma promoted_lookup (tmp final : Path) (recs : list PubmedRecord) (fs : FS) :
  tmp ≠ final →
  let fs' :=
    replace tmp final
      (fold_left (λ fs rec, write tmp (json_dumps rec +:+ nl) fs) recs
         (open_w tmp fs)) in
  fs' !! final = Some (written recs)
  ∧ fs' !! tmp = None
  ∧ ∀ p, p ≠ tmp → p ≠ final → fs' !! p = fs !! p.
Proof.
  intros Hne fs'. subst fs'. unfold replace.
  rewrite (write_lines tmp recs (open_w tmp fs) "" (lookup_insert_eq fs tmp "")).
  split_and!.
  - by rewrite lookup_insert_eq.
  - by rewrite lookup_insert_ne, lookup_delete_eq.
  - intros p Hp1 Hp2.
    rewrite lookup_insert_ne, lookup_delete_ne, write_lines_other by done.
    unfold open_w. by rewrite lookup_insert_ne.
Qed.

End Promotion.

(** X12. Processing a shard again after it has succeeded changes nothing:
    the second call also succeeds and leaves every file as the first call
    left it. *)
Theorem xml_gz_to_jsonl_idempotent (pp : option PubmedParser) (fh : list token)
    (jsonl_path : Path) (fs fs1 : FS) :
  xml_gz_to_jsonl pp fh jsonl_path fs = (fs1, Done) →
  xml_gz_to_jsonl pp fh jsonl_path fs1 = (fs1, Done).
Proof.
  unfold xml_gz_to_jsonl.
  destruct (with_suffix jsonl_path ".jsonl.partial") as [tmp|] eqn:Hs; [|done].
  pose proof (with_suffix_partial_ne _ _ Hs) as Hne.
  destruct (iter_records_from_xml_gz pp fh) as [recs [|e]]; [|done].
  intros [= <-]. f_equal. apply map_eq. intros p.
  destruct (promoted_lookup tmp jsonl_path recs fs Hne) as (H1 & H2 & H3).
  match goal with |- ?m !! p = _ =>
    destruct (promoted_lookup tmp jsonl_path recs
                (replace tmp jsonl_path
                   (fold_left (λ fs rec, write tmp (json_dumps rec +:+ nl) fs)
                      recs (open_w tmp fs))) Hne) as (G1 & G2 & G3)
  end.
  destruct (decide (p = jsonl_path)) as [->|Hp1]; [by rewrite G1, H1|].
  destruct (decide (p = tmp)) as [->|Hp2]; [by rewrite G2, H2|].
  by rewrite G3.
Qed.

Lemma xml_gz_to_jsonl_idempotent_witness :
  let first :=
    xml_gz_to_jsonl None (to_tokens MoreSamples.update_file) Samples.final_path
      Samples.previous_run in
  xml_gz_to_jsonl None (to_tokens MoreSamples.update_file) Samples.final_path
    first.1
  = (first.1, Done).
Proof.
  apply (xml_gz_to_jsonl_idempotent None (to_tokens MoreSamples.update_file)
           Samples.final_path Samples.previous_run).
  apply injective_projections; [reflexivity|vm_compute; exact eq_refl].
Defined.

(** ** The driver *)

Section MainFacts.

Variable pp : option PubmedParser.
Variable sorted_glob : string → string → list Path.
Variable gzip_open : Path → list token.

(** The files are gone through one after the other; those after a failed
    one are not looked at. *)
Lemma parse_files_app (args : Args) (a b : list Path) (fs : FS) :
  parse_files pp gzip_open args (a ++ b) fs
  = match parse_files pp gzip_open args a fs with
    | (fs', Done) => parse_files pp gzip_open args b fs'
    | (fs', Raised e) => (fs', Raised e)
    end.
Proof.
  revert fs. induction a as [|f a IH]; intros fs; simpl; [done|].
  destruct (skip_existing args && exists_nonempty (jsonl_path_of args f) fs);
    [apply IH|].
  destruct (xml_gz_to_jsonl pp (gzip_open f) (jsonl_path_of args f) fs)
    as [fs' [|e]]; [apply IH|done].
Qed.

(** With a named final path the call ends as the generator does. *)
Lemma xml_gz_to_jsonl_outcome (fh : list token) (jsonl_path : Path) (fs : FS) :
  jsonl_path.2 ≠ "" →
  (xml_gz_to_jsonl pp fh jsonl_path fs).2 = (iter_records_from_xml_gz pp fh).2.
Proof.
  intros Hname%truthy_true. unfold xml_gz_to_jsonl, with_suffix.
  rewrite Hname. cbn [negb].
  destruct (iter_records_from_xml_gz pp fh) as [recs [|e]]; done.
Qed.

(** A call that raises leaves the final path as it was. *)
Lemma xml_gz_to_jsonl_raised_keeps (fh : list token) (jsonl_path : Path) (fs : FS) :
  (∃ e, (xml_gz_to_jsonl pp fh jsonl_path fs).2 = Raised e) →
  (xml_gz_to_jsonl pp fh jsonl_path fs).1 !! jsonl_path = fs !! jsonl_path.
Proof.
  unfold xml_gz_to_jsonl.
  destruct (with_suffix jsonl_path ".jsonl.partial") as [tmp|] eqn:Hs; [|done].
  pose proof (with_suffix_partial_ne _ _ Hs) as Hne.
  destruct (iter_records_from_xml_gz pp fh) as [recs [|e]]; simpl.
  - by intros [e' ?].
  - intros _. rewrite write_lines_other by done. unfold open_w.
    by rewrite lookup_insert_ne.
Qed.

(** Shards that parse to their end do not stop the run. *)
Lemma parse_files_done (args : Args) (files : list Path) (fs : FS) :
  Forall (λ f, (iter_records_from_xml_gz pp (gzip_open f)).2 = Done
               ∧ (jsonl_path_of args f).2 ≠ "") files →
  (parse_files pp gzip_open args files fs).2 = Done.
Proof.
  intros Hall. revert fs. induction Hall as [|f files [Hf Hn] _ IH]; intros fs;
    simpl; [done|].
  destruct (skip_existing args && exists_nonempty (jsonl_path_of args f) fs);
    [apply IH|].
  pose proof (xml_gz_to_jsonl_outcome (gzip_open f) (jsonl_path_of args f) fs Hn)
    as Hout.
  rewrite Hf in Hout.
  destruct (xml_gz_to_jsonl pp (gzip_open f) (jsonl_path_of args f) fs)
    as [fs' out].
  simpl in Hout. subst out. apply IH.
Qed.

Lemma parse_files_all_skipped (args : Args) (files : list Path) (fs : FS) :
  skip_existing args = true →
  Forall (λ f, exists_nonempty (jsonl_path_of args f) fs = true) files →
  parse_files pp gzip_open args files fs = (fs, Done).
Proof.
  intros Hskip. induction 1 as [|f files Hf _ IH]; simpl; [done|].
  by rewrite Hskip, Hf.
Qed.

Lemma Forall_slice_to {X} (P : X → Prop) (n : Z) (l : list X) :
  Forall P l → Forall P (slice_to n l).
Proof. intros H. unfold slice_to. destruct (0 <=? n)%Z; by apply Forall_take. Qed.

End MainFacts.

(** X13. [main] does not survive a failed shard, with or without
    [--max_files]: when, among the files selected, those before a shard
    parse to their end and the generator raises on that shard (which is
    not skipped), [main] ends with the same exception. The file system is
    then as the call for that shard left it, with the final path of the
    shard as it was before the call; the shards selected after it play no
    part, whatever they hold. *)
Theorem main_stops_at_first_failure (pp : option PubmedParser)
    (sorted_glob : string → string → list Path) (gzip_open : Path → list token)
    (args : Args) (before after : list Path) (gz_path : Path)
    (fs : FS) (e : exn) :
  match max_files args with
  | Some n => slice_to n (sorted_glob (input_dir args) (glob args))
  | None => sorted_glob (input_dir args) (glob args)
  end = before ++ gz_path :: after →
  Forall (λ f, (iter_records_from_xml_gz pp (gzip_open f)).2 = Done
               ∧ (jsonl_path_of args f).2 ≠ "") before →
  skip_existing args
  && exists_nonempty (jsonl_path_of args gz_path)
       (parse_files pp gzip_open args before fs).1 = false →
  (jsonl_path_of args gz_path).2 ≠ "" →
  (iter_records_from_xml_gz pp (gzip_open gz_path)).2 = Raised e →
  (main pp sorted_glob gzip_open args fs).2 = Raised e
  ∧ (main pp sorted_glob gzip_open args fs).1
    = (xml_gz_to_jsonl pp (gzip_open gz_path) (jsonl_path_of args gz_path)
         (parse_files pp gzip_open args before fs).1).1
  ∧ (main pp sorted_glob gzip_open args fs).1 !! jsonl_path_of args gz_path
    = (parse_files pp gzip_open args before fs).1 !! jsonl_path_of args gz_path.
Proof.
  intros Hfiles Hbefore Hskip Hname Hfail.
  assert (main pp sorted_glob gzip_open args fs
          = parse_files pp gzip_open args (before ++ gz_path :: after) fs) as ->.
  { unfold main. by rewrite <- Hfiles. }
  rewrite parse_files_app.
  pose proof (parse_files_done pp gzip_open args before fs Hbefore) as Hdone.
  destruct (parse_files pp gzip_open args before fs) as [fs1 out].
  cbn [fst snd] in *. subst out. cbn [parse_files]. rewrite Hskip.
  pose proof (xml_gz_to_jsonl_outcome pp (gzip_open gz_path)
                (jsonl_path_of args gz_path) fs1 Hname) as Hout.
  pose proof (xml_gz_to_jsonl_raised_keeps pp (gzip_open gz_path)
                (jsonl_path_of args gz_path) fs1) as Hkeep.
  rewrite Hfail in Hout.
  destruct (xml_gz_to_jsonl pp (gzip_open gz_path) (jsonl_path_of args gz_path) fs1)
    as [fs2 out2].
  cbn [fst snd] in *. subst out2. split_and!; [done|done|].
  apply Hkeep. by exists e.
Qed.

Lemma main_stops_at_first_failure_witness :
  (main None MoreSamples.listing MoreSamples.contents
     (MoreSamples.run_args false) ∅).2
  = Raised EOFError
  ∧ (main None MoreSamples.listing MoreSamples.contents
       (MoreSamples.run_args false) ∅).1 !! ("out", "b.jsonl")
    = None.
Proof.
  destruct (main_stops_at_first_failure None MoreSamples.listing
              MoreSamples.contents (MoreSamples.run_args false)
              [] [MoreSamples.gz "b.xml.gz"] (MoreSamples.gz "a.xml.gz")
              ∅ EOFError eq_refl ltac:(constructor) eq_refl
              ltac:(vm_compute; discriminate)
              ltac:(vm_compute; exact eq_refl)) as (H1 & H2 & _).
  split; [exact H1|]. rewrite H2. vm_compute. exact eq_refl.
Defined.

(** X14. With [--skip_existing], a run over inputs whose output files all
    exist and are not empty parses nothing and leaves the file system as
    it is, whatever the inputs hold and whatever [--max_files] says. *)
Theorem main_skips_existing_outputs (pp : option PubmedParser)
    (sorted_glob : string → string → list Path) (gzip_open : Path → list token)
    (args : Args) (fs : FS) :
  skip_existing args = true →
  Forall (λ gz_path, ∃ content, fs !! jsonl_path_of args gz_path = Some content
                                ∧ content ≠ "")
    (sorted_glob (input_dir args) (glob args)) →
  main pp sorted_glob gzip_open args fs = (fs, Done).
Proof.
  intros Hskip Hall. unfold main.
  apply parse_files_all_skipped; [done|].
  assert (Forall (λ f, exists_nonempty (jsonl_path_of args f) fs = true)
            (sorted_glob (input_dir args) (glob args))) as H.
  { eapply Forall_impl; [exact Hall|].
    intros f (content & Hf & Hc). unfold exists_nonempty. rewrite Hf.
    by apply truthy_true. }
  destruct (max_files args); [by apply Forall_slice_to|done].
Qed.

Lemma main_skips_existing_outputs_witness :
  main None MoreSamples.listing MoreSamples.contents (MoreSamples.run_args true)
    MoreSamples.both_done
  = (MoreSamples.both_done, Done).
Proof.
  apply (main_skips_existing_outputs None MoreSamples.listing
           MoreSamples.contents (MoreSamples.run_args true)
           MoreSamples.both_done eq_refl).
  repeat constructor.
  - exists "x". split; [vm_compute; exact eq_refl|discriminate].
  - exists "y". split; [vm_compute; exact eq_refl|discriminate].
Defined.

(** ** Memory hygiene inside a citation *)

Section Oversized.

Variable pp : option PubmedParser.



End Oversized.



(** ** Malformed shards and the tree that is kept *)



(** X18. Clearing does not detach: while the document element is open it
    keeps one cleared sub-element for every citation already processed, so
    the tree holds one node more per citation. *)
Theorem resident_grows_with_citations (pp : option PubmedParser) (n : nat) :
  tree_at pp (Samples.citation_run n)
  = {| open_elems :=
         [Elem "PubmedArticleSet" ∅ None
            (replicate n (Elem "MedlineCitation" ∅ None [] None)) None];
       closed_root := None |}
  ∧ resident (tree_at pp (Samples.citation_run n)) = S n.
Proof.
  split; [|apply citation_run_resident].
  unfold tree_at, Samples.citation_run. simpl.
  by rewrite tree_after_citations.
Qed.
